(** * PicoTTS quality and performance layer: a shallow embedding

    The development follows three translation units of the library:

    - [picofixedpoint.h]    (Q15 saturating arithmetic),
    - [picodtcache.h/.c]    (the decision tree result cache),
    - [picoqualityenhance.h/.c] (voice and prosody parameters, profiles,
                             the white noise generator), in the build
                             with [PICO_USE_QUALITY_ENHANCE] set to 1.

    C integers are values of [Z] with the wrap-around of their width
    written out; [picoos_single] is an IEEE binary32 number, taken from
    the Standard Library's [spec_float]; arrays are lists read and
    written by index; a pointer argument that the code tests against
    [NULL] is an [option]; code that writes through a pointer or into a
    global returns the new contents. *)

From Stdlib Require Import ZArith Lia Bool List.
From Stdlib Require Import Floats.SpecFloat.
From stdpp Require Import base list.

Local Open Scope Z_scope.

(* ===================================================================== *)
(** * Machine integers *)
(* ===================================================================== *)

(** Conversion to an unsigned type of [w] bits. *)
Definition to_unsigned (w : Z) (x : Z) : Z := x mod 2 ^ w.

(** Conversion to a signed two's complement type of [w] bits. *)
Definition to_signed (w : Z) (x : Z) : Z :=
  (x + 2 ^ (w - 1)) mod 2 ^ w - 2 ^ (w - 1).

(** Modelled from the spec: the widths of the integer typedefs of
    [picoos.h], which is not among the sources.  The data model gives
    [picoos_uint8], [picoos_uint16] and [picoos_uint32] as [u8], [u16]
    and [u32]; [picoos_int8], [picoos_int16] and [picoos_int32] are their
    signed counterparts, and coincide with the [int16_t] and [int32_t] of
    [picofixedpoint.h]. *)
Definition to_uint8 := to_unsigned 8.
Definition to_uint16 := to_unsigned 16.
Definition to_uint32 := to_unsigned 32.
Definition to_int8 := to_signed 8.
Definition to_int16 := to_signed 16.
Definition to_int32 := to_signed 32.

Definition is_uint8 (x : Z) : Prop := 0 <= x < 256.
Definition is_uint16 (x : Z) : Prop := 0 <= x < 65536.
Definition is_uint32 (x : Z) : Prop := 0 <= x < 4294967296.
Definition is_int8 (x : Z) : Prop := -128 <= x <= 127.
Definition is_int16 (x : Z) : Prop := -32768 <= x <= 32767.

(* ===================================================================== *)
(** * picofixedpoint.h *)
(* ===================================================================== *)

Definition PICO_Q15_SHIFT : Z := 15.
Definition PICO_Q15_ONE : Z := Z.shiftl 1 PICO_Q15_SHIFT.
(** [((int16_t)0x8000)] and [((int16_t)0x7FFF)] *)
Definition PICO_Q15_MIN : Z := to_int16 0x8000.
Definition PICO_Q15_MAX : Z := to_int16 0x7FFF.

(** [pico_q15_mult]: the 32-bit product, shifted right by 15, narrowed. *)
Definition pico_q15_mult (a b : Z) : Z :=
  to_int16 (Z.shiftr (to_int32 (a * b)) PICO_Q15_SHIFT).

(** [pico_q15_add_sat]: [int32_t result = (int32_t)a + (int32_t)b;] then
    the two comparisons against the Q15 limits, then the narrowing cast. *)
Definition pico_q15_add_sat (a b : Z) : Z :=
  let result := to_int32 (a + b) in
  if result >? PICO_Q15_MAX then PICO_Q15_MAX
  else if result <? PICO_Q15_MIN then PICO_Q15_MIN
  else to_int16 result.

(** [pico_q15_sub_sat] *)
Definition pico_q15_sub_sat (a b : Z) : Z :=
  let result := to_int32 (a - b) in
  if result >? PICO_Q15_MAX then PICO_Q15_MAX
  else if result <? PICO_Q15_MIN then PICO_Q15_MIN
  else to_int16 result.

(** The mathematical clamp into the Q15 range, for comparison. *)
Definition q15_clamp (x : Z) : Z := Z.max (-32768) (Z.min 32767 x).

(* ===================================================================== *)
(** * picoqualityenhance.c: the white noise source *)
(* ===================================================================== *)

(** [pico_generate_white_noise(picoos_uint32 *seed)].  The function does
    not test [seed] against [NULL]; the cell it points to is the argument,
    and the result is the returned sample paired with the new contents of
    the cell.

    The return statement subtracts 16384 from a cast: it parses as the
    cast to [picoos_int16] applied to the masked upper half of the seed,
    a subtraction carried out in [int], and the conversion of the
    difference to the return type. *)
Definition pico_generate_white_noise (seed : Z) : Z * Z :=
  let seed' := to_uint32 (seed * 1664525 + 1013904223) in
  (to_int16 (to_int16 (Z.land (Z.shiftr seed' 16) 0xFFFF) - 16384), seed').

(** [n] successive calls on the same cell, as in the loop of
    [examples/quality_example.c]: the samples in order, and the final
    seed. *)
Fixpoint pico_white_noise_run (n : nat) (seed : Z) : list Z * Z :=
  match n with
  | O => ([], seed)
  | S n' =>
      let '(s, seed') := pico_generate_white_noise seed in
      let '(rest, seed'') := pico_white_noise_run n' seed' in
      (s :: rest, seed'')
  end.

(** The state of the linear congruential generator after [n] steps. *)
Fixpoint lcg_iter (n : nat) (seed : Z) : Z :=
  match n with
  | O => seed
  | S n' => lcg_iter n' ((seed * 1664525 + 1013904223) mod 2 ^ 32)
  end.

(** The sample the specification derives from a generator state: the
    upper 16 bits less 16384, as a 16-bit two's complement number. *)
Definition sample_of_state (s : Z) : Z :=
  let hi := s / 65536 in
  if hi <? 49152 then hi - 16384 else hi - 16384 - 65536.

(* ===================================================================== *)
(** * picodefs.h: status codes *)
(* ===================================================================== *)

(** Modelled from the spec: the status codes of [picodefs.h], which is not
    among the sources.  The error handling section describes them as small
    integer codes with a single generic bucket for every failure that is
    not a missing pointer; the code only ever compares them with [PICO_OK],
    so all that is used of them is that they are pairwise distinct. *)
Inductive pico_status_t : Set :=
| PICO_OK
| PICO_ERR_NULLPTR_ACCESS
| PICO_ERR_OTHER
| PICO_EXC_OUT_OF_MEM.

Definition is_PICO_OK (r : pico_status_t) : bool :=
  match r with PICO_OK => true | _ => false end.

(* ===================================================================== *)
(** * picodtcache.h *)
(* ===================================================================== *)

(** The desktop configuration: [#define PICO_DT_CACHE_SIZE 256]. *)
Definition PICO_DT_CACHE_SIZE : Z := 256.

Record picodt_cache_entry_t : Set := mk_entry {
  context_hash : Z;   (* picoos_uint32 *)
  pdf_index : Z;      (* picoos_uint16 *)
  tree_id : Z;        (* picoos_uint16 *)
  valid : Z;          (* picoos_uint8 *)
  access_count : Z    (* picoos_uint8 *)
}.

Record picodt_cache_stats_t : Set := mk_stats {
  hits : Z;
  misses : Z;
  collisions : Z;
  evictions : Z
}.

Record picodt_cache_t : Set := mk_cache {
  entries : list picodt_cache_entry_t;
  stats : picodt_cache_stats_t;
  enabled : Z;        (* picoos_uint8 *)
  clock : Z           (* picoos_uint8 *)
}.

#[global] Instance picodt_cache_entry_inhabited : Inhabited picodt_cache_entry_t :=
  populate (mk_entry 0 0 0 0 0).

(** [cache->entries[idx]]; every index the code computes is masked into
    the array. *)
Definition entry_at (c : picodt_cache_t) (idx : Z) : picodt_cache_entry_t :=
  entries c !!! Z.to_nat idx.

(** The array type fixes the number of slots. *)
Definition cache_wf (c : picodt_cache_t) : Prop :=
  length (entries c) = Z.to_nat PICO_DT_CACHE_SIZE.

(** [picodt_cache_is_enabled]: [cache != NULL && cache->enabled]. *)
Definition picodt_cache_is_enabled (cache : option picodt_cache_t) : Z :=
  match cache with
  | None => 0
  | Some c => if enabled c =? 0 then 0 else 1
  end.

(** [picodt_cache_set_enabled] *)
Definition picodt_cache_set_enabled (cache : option picodt_cache_t) (en : Z)
  : option picodt_cache_t :=
  match cache with
  | None => None
  | Some c => Some (mk_cache (entries c) (stats c) en (clock c))
  end.

(* ===================================================================== *)
(** * picodtcache.c *)
(* ===================================================================== *)

(** [get_cache_index] *)
Definition get_cache_index (hash : Z) : Z :=
  to_uint16 (Z.land hash (PICO_DT_CACHE_SIZE - 1)).

(** The slot visited at step [i] of a probe that starts at [index]:
    [(index + i) & (PICO_DT_CACHE_SIZE - 1)], held in a [picoos_uint16]. *)
Definition probe_index (index i : Z) : Z :=
  to_uint16 (Z.land (index + i) (PICO_DT_CACHE_SIZE - 1)).

(** The body of the loop of [find_lru_entry], with [n] iterations left. *)
Fixpoint find_lru_loop (c : picodt_cache_t) (start_index : Z) (n : nat)
  (i lru_index min_access : Z) : Z :=
  match n with
  | O => lru_index
  | S n' =>
      let idx := probe_index start_index i in
      if valid (entry_at c idx) =? 0 then idx
      else if access_count (entry_at c idx) <? min_access
           then find_lru_loop c start_index n' (i + 1) idx
                  (access_count (entry_at c idx))
           else find_lru_loop c start_index n' (i + 1) lru_index min_access
  end.

(** [find_lru_entry] *)
Definition find_lru_entry (c : picodt_cache_t) (start_index : Z) : Z :=
  find_lru_loop c start_index 4 0 start_index 255.

Definition reset_entry (e : picodt_cache_entry_t) : picodt_cache_entry_t :=
  mk_entry (context_hash e) (pdf_index e) (tree_id e) 0 0.

(** [picodt_cache_initialize].  [mem] is what [picoos_allocate] hands
    back: [None] when memory is exhausted, otherwise a block whose
    contents are whatever they were.  The loop visits every slot and
    writes its [valid] and [access_count] fields only.  The result is the
    status and the pointer stored through [cache] (taken to be non-null). *)
Definition picodt_cache_initialize (mem : option picodt_cache_t)
  : pico_status_t * option picodt_cache_t :=
  match mem with
  | None => (PICO_EXC_OUT_OF_MEM, None)
  | Some new_cache =>
      (PICO_OK,
       Some (mk_cache (reset_entry <$> entries new_cache) (mk_stats 0 0 0 0) 1 0))
  end.

(** [picodt_cache_clear] *)
Definition picodt_cache_clear (cache : option picodt_cache_t)
  : option picodt_cache_t :=
  match cache with
  | None => None
  | Some c =>
      Some (mk_cache (reset_entry <$> entries c) (mk_stats 0 0 0 0)
              (enabled c) 0)
  end.

(** The test of both lookup branches: the slot is valid and carries the
    hash and the tree. *)
Definition entry_matches (e : picodt_cache_entry_t) (hash tree : Z) : bool :=
  negb (valid e =? 0) && (context_hash e =? hash) && (tree_id e =? tree).

(** The statements of a hit at slot [idx]:
    [access_count = clock++; hits++;] and, outside the primary slot,
    [collisions++]. *)
Definition record_hit (c : picodt_cache_t) (idx : Z) (collision : bool)
  : picodt_cache_t :=
  let e := entry_at c idx in
  let e' := mk_entry (context_hash e) (pdf_index e) (tree_id e) (valid e)
              (clock c) in
  let st := stats c in
  let st' := mk_stats (to_uint32 (hits st + 1)) (misses st)
               (if collision then to_uint32 (collisions st + 1)
                else collisions st)
               (evictions st) in
  mk_cache (<[Z.to_nat idx := e']> (entries c)) st' (enabled c)
    (to_uint8 (clock c + 1)).

Definition record_miss (c : picodt_cache_t) : picodt_cache_t :=
  let st := stats c in
  mk_cache (entries c)
    (mk_stats (hits st) (to_uint32 (misses st + 1)) (collisions st)
       (evictions st))
    (enabled c) (clock c).

(** The collision loop of [picodt_cache_lookup], [i] running from 1 to 3;
    falling out of the loop is the miss. *)
Fixpoint lookup_probe (c : picodt_cache_t) (hash tree index : Z) (n : nat)
  (i : Z) (out : Z) : Z * option picodt_cache_t * option Z :=
  match n with
  | O => (0, Some (record_miss c), Some out)
  | S n' =>
      let idx := probe_index index i in
      if entry_matches (entry_at c idx) hash tree
      then (1, Some (record_hit c idx true),
            Some (pdf_index (entry_at c idx)))
      else lookup_probe c hash tree index n' (i + 1) out
  end.

(** [picodt_cache_lookup].  [pdf] is the out-parameter: [None] for a null
    pointer, otherwise the current contents of the cell.  The result is
    the returned flag, the cache and the cell after the call. *)
Definition picodt_cache_lookup (cache : option picodt_cache_t)
  (hash tree : Z) (pdf : option Z)
  : Z * option picodt_cache_t * option Z :=
  match cache, pdf with
  | Some c, Some out =>
      if picodt_cache_is_enabled cache =? 0 then (0, cache, pdf)
      else
        let index := get_cache_index hash in
        if entry_matches (entry_at c index) hash tree
        then (1, Some (record_hit c index false),
              Some (pdf_index (entry_at c index)))
        else lookup_probe c hash tree index 3 1 out
  | _, _ => (0, cache, pdf)
  end.

(** The five stores of either insert branch, with [clock++]. *)
Definition store_entry (c : picodt_cache_t) (idx hash tree pdf : Z)
  : picodt_cache_t :=
  mk_cache (<[Z.to_nat idx := mk_entry hash pdf tree 1 (clock c)]> (entries c))
    (stats c) (enabled c) (to_uint8 (clock c + 1)).

Definition count_eviction (c : picodt_cache_t) : picodt_cache_t :=
  let st := stats c in
  mk_cache (entries c)
    (mk_stats (hits st) (misses st) (collisions st)
       (to_uint32 (evictions st + 1)))
    (enabled c) (clock c).

(** [picodt_cache_insert] *)
Definition picodt_cache_insert (cache : option picodt_cache_t)
  (hash tree pdf : Z) : option picodt_cache_t :=
  match cache with
  | None => None
  | Some c =>
      if picodt_cache_is_enabled cache =? 0 then cache
      else
        let index := get_cache_index hash in
        if valid (entry_at c index) =? 0
        then Some (store_entry c index hash tree pdf)
        else
          let index := find_lru_entry c index in
          let c1 := if valid (entry_at c index) =? 0 then c
                    else count_eviction c in
          Some (store_entry c1 index hash tree pdf)
  end.

(** [picodt_cache_hit_rate] *)
Definition picodt_cache_hit_rate (cache : option picodt_cache_t) : Z :=
  match cache with
  | None => 0
  | Some c =>
      let total := to_uint32 (hits (stats c) + misses (stats c)) in
      if total =? 0 then 0
      else to_uint8 (to_uint32 (hits (stats c) * 100) / total)
  end.

(** ** Histories of a cache *)

(** The window a lookup of [hash] walks through, and the slots of it
    that hold a live entry for the pair. *)
Definition probe_window (hash : Z) : list Z :=
  map (probe_index (get_cache_index hash)) [0; 1; 2; 3].

Definition matching_slots (c : picodt_cache_t) (hash tree : Z) : list Z :=
  List.filter (fun idx => entry_matches (entry_at c idx) hash tree)
    (probe_window hash).

(** The test of the lookup at step [i] of the probe of [hash]. *)
Definition matches_at (c : picodt_cache_t) (hash tree i : Z) : bool :=
  entry_matches (entry_at c (probe_index (get_cache_index hash) i)) hash tree.

(** The first step of the probe at which the test succeeds. *)
Definition first_match (c : picodt_cache_t) (hash tree : Z) : option Z :=
  List.find (matches_at c hash tree) [0; 1; 2; 3].

(** An insert followed at once by a lookup of the same key finds the
    inserted index. *)
Definition insert_then_lookup_returns (c : picodt_cache_t)
  (hash tree pdf out : Z) : Prop :=
  exists c1 c2,
    picodt_cache_insert (Some c) hash tree pdf = Some c1
    /\ picodt_cache_lookup (Some c1) hash tree (Some out)
       = (1, Some c2, Some pdf).

(** States reached from initialization by lookups, inserts and clears in
    any order. *)
Inductive reachable : picodt_cache_t -> Prop :=
| reach_init raw c :
    cache_wf raw ->
    picodt_cache_initialize (Some raw) = (PICO_OK, Some c) ->
    reachable c
| reach_lookup c hash tree out r c' o :
    reachable c ->
    picodt_cache_lookup (Some c) hash tree (Some out) = (r, Some c', o) ->
    reachable c'
| reach_insert c hash tree pdf c' :
    reachable c ->
    picodt_cache_insert (Some c) hash tree pdf = Some c' ->
    reachable c'
| reach_clear c c' :
    reachable c ->
    picodt_cache_clear (Some c) = Some c' ->
    reachable c'.

(** States reached when the cache is driven the way the header describes
    its use: a result is inserted only after the lookup of its key has
    just missed. *)
Inductive reachable_on_miss : picodt_cache_t -> Prop :=
| rom_init raw c :
    cache_wf raw ->
    picodt_cache_initialize (Some raw) = (PICO_OK, Some c) ->
    reachable_on_miss c
| rom_lookup c hash tree out r c' o :
    reachable_on_miss c ->
    picodt_cache_lookup (Some c) hash tree (Some out) = (r, Some c', o) ->
    reachable_on_miss c'
| rom_miss_insert c hash tree out c1 o pdf c2 :
    reachable_on_miss c ->
    picodt_cache_lookup (Some c) hash tree (Some out) = (0, Some c1, o) ->
    picodt_cache_insert (Some c1) hash tree pdf = Some c2 ->
    reachable_on_miss c2
| rom_clear c c' :
    reachable_on_miss c ->
    picodt_cache_clear (Some c) = Some c' ->
    reachable_on_miss c'.

(** A block of zeroed memory, and the cache initialized in it. *)
Definition zero_block : picodt_cache_t :=
  mk_cache (replicate (Z.to_nat PICO_DT_CACHE_SIZE) (mk_entry 0 0 0 0 0))
    (mk_stats 0 0 0 0) 0 0.

Definition fresh_cache : picodt_cache_t :=
  mk_cache (reset_entry <$> entries zero_block) (mk_stats 0 0 0 0) 1 0.

(** No two steps of a probe both find a live entry for the key. *)
Definition probe_unique (c : picodt_cache_t) : Prop :=
  forall hash tree i j,
    0 <= i < 4 -> 0 <= j < 4 ->
    matches_at c hash tree i = true -> matches_at c hash tree j = true ->
    i = j.

(** The cache after a lookup, and after [n] lookups of one key. *)
Definition after_lookup (hash tree : Z) (c : picodt_cache_t) : picodt_cache_t :=
  match picodt_cache_lookup (Some c) hash tree (Some 0) with
  | (_, Some c', _) => c'
  | _ => c
  end.

Definition after_lookups (n : N) (hash tree : Z) (c : picodt_cache_t)
  : picodt_cache_t :=
  N.iter n (after_lookup hash tree) c.

Definition after_insert (hash tree pdf : Z) (c : picodt_cache_t)
  : picodt_cache_t :=
  match picodt_cache_insert (Some c) hash tree pdf with
  | Some c' => c'
  | None => c
  end.

(** The fresh cache after the key (0, 0) was inserted once, and after it
    was inserted twice, with results 1 and 2. *)
Definition cache_one_insert : picodt_cache_t := after_insert 0 0 1 fresh_cache.
Definition cache_two_inserts : picodt_cache_t :=
  after_insert 0 0 2 cache_one_insert.

(** The fresh cache after a lookup that misses and the insert of its key. *)
Definition cache_miss_then_insert : picodt_cache_t :=
  after_insert 0 0 1 (after_lookup 0 0 fresh_cache).

(** The fresh cache after two lookups that miss and one insert. *)
Definition cache_two_misses : picodt_cache_t :=
  after_insert 0 0 1 (after_lookup 0 0 (after_lookup 0 0 fresh_cache)).

(* ===================================================================== *)
(** * Single precision numbers *)
(* ===================================================================== *)

(** Modelled from the spec: the typedef [picoos_single] of [picoos.h],
    which is not among the sources; the data model calls the fields of
    this type [float].  It is IEEE binary32: 24 bits of precision,
    infinities at exponent 128, and a NaN that every ordered comparison
    answers with false. *)
Definition picoos_single : Set := spec_float.

Definition single_prec : Z := 24.
Definition single_emax : Z := 128.

Definition single_valid (x : picoos_single) : bool :=
  valid_binary single_prec single_emax x.

Definition single_of_Z (n : Z) : picoos_single :=
  binary_normalize single_prec single_emax n 0 false.

(** The constant a decimal literal [n/d] with suffix [f] denotes: the
    quotient rounded to nearest even ([n] and [d] below [2^24]). *)
Definition single_lit (n d : Z) : picoos_single :=
  SFdiv single_prec single_emax (single_of_Z n) (single_of_Z d).

(** The C operators [<] and [>] on [float]. *)
Definition single_lt (x y : picoos_single) : bool := SFltb x y.
Definition single_gt (x y : picoos_single) : bool := SFltb y x.

Definition single_is_nan (x : picoos_single) : bool :=
  match x with S754_nan => true | _ => false end.

(** [lo <= x <= hi] as IEEE comparisons: what it means for [x] to lie in
    the documented interval.  No NaN lies in any interval. *)
Definition single_in_range (lo hi x : picoos_single) : bool :=
  SFleb lo x && SFleb x hi.

(** [x] is finite and its value is exactly the rational [n/d]. *)
Definition single_exactly (x : picoos_single) (n d : Z) : Prop :=
  match x with
  | S754_zero _ => n = 0
  | S754_finite s m e =>
      cond_Zopp s (Zpos m) * 2 ^ Z.max e 0 * d = n * 2 ^ Z.max (- e) 0
  | _ => False
  end.

(* ===================================================================== *)
(** * picoqualityenhance.h *)
(* ===================================================================== *)

Definition PICO_QUALITY_MODE_SPEED : Z := 0.
Definition PICO_QUALITY_MODE_BALANCED : Z := 1.
Definition PICO_QUALITY_MODE_QUALITY : Z := 2.
Definition PICO_DEFAULT_QUALITY_MODE : Z := PICO_QUALITY_MODE_BALANCED.

Definition PICO_NOISE_FILTER_ORDER : Z := 8.

Definition PICO_PITCH_SCALE_MIN : picoos_single := Eval vm_compute in single_lit 5 10.
Definition PICO_PITCH_SCALE_MAX : picoos_single := Eval vm_compute in single_lit 20 10.
Definition PICO_SPEED_SCALE_MIN : picoos_single := Eval vm_compute in single_lit 5 10.
Definition PICO_SPEED_SCALE_MAX : picoos_single := Eval vm_compute in single_lit 30 10.
Definition PICO_FORMANT_SHIFT_MIN : picoos_single := Eval vm_compute in single_lit (-5000) 10.
Definition PICO_FORMANT_SHIFT_MAX : picoos_single := Eval vm_compute in single_lit 5000 10.

Record pico_voice_params_t : Set := mk_voice {
  pitch_scale : picoos_single;
  speed_scale : picoos_single;
  formant_shift : picoos_single;
  quality_mode : Z            (* picoos_int8 *)
}.

Record pico_prosody_params_t : Set := mk_prosody {
  emphasis_scale : picoos_single;
  pause_scale : picoos_single;
  question_boost : Z          (* picoos_int8 *)
}.

Record pico_noise_filter_t : Set := mk_filter {
  state : list Z;             (* picoos_int16 [PICO_NOISE_FILTER_ORDER] *)
  coeffs : list Z;            (* picoos_int16 [PICO_NOISE_FILTER_ORDER] *)
  order : Z                   (* picoos_int8 *)
}.

Record pico_quality_context_t : Set := mk_context {
  voice_params : pico_voice_params_t;
  prosody_params : pico_prosody_params_t;
  noise_filter : pico_noise_filter_t;
  random_seed : Z;            (* picoos_uint32 *)
  initialized : Z             (* picoos_int8 *)
}.

Record pico_quality_stats_t : Set := mk_quality_stats {
  noise_samples_generated : Z;
  filter_updates : Z;
  pitch_adjustments : Z;
  formant_shifts : Z
}.

(** [pico_voice_profile_t]: the enumerators count up from zero.  A C
    enumeration is an integer type, so the argument of
    [pico_apply_voice_profile] is an integer. *)
Definition PICO_VOICE_PROFILE_DEFAULT : Z := 0.
Definition PICO_VOICE_PROFILE_MALE : Z := 1.
Definition PICO_VOICE_PROFILE_FEMALE : Z := 2.
Definition PICO_VOICE_PROFILE_CHILD : Z := 3.
Definition PICO_VOICE_PROFILE_ROBOT : Z := 4.
Definition PICO_VOICE_PROFILE_SLOW : Z := 5.
Definition PICO_VOICE_PROFILE_FAST : Z := 6.

Definition PICO_DEFAULT_PITCH_SCALE : picoos_single := Eval vm_compute in single_lit 10 10.
Definition PICO_DEFAULT_SPEED_SCALE : picoos_single := Eval vm_compute in single_lit 10 10.
Definition PICO_DEFAULT_FORMANT_SHIFT : picoos_single := Eval vm_compute in single_lit 0 10.
Definition PICO_DEFAULT_EMPHASIS_SCALE : picoos_single := Eval vm_compute in single_lit 10 10.
Definition PICO_DEFAULT_PAUSE_SCALE : picoos_single := Eval vm_compute in single_lit 10 10.
Definition PICO_DEFAULT_QUESTION_BOOST : Z := 50.

Definition PICO_MALE_PITCH_SCALE : picoos_single := Eval vm_compute in single_lit 80 100.
Definition PICO_MALE_FORMANT_SHIFT : picoos_single := Eval vm_compute in single_lit (-1200) 10.
Definition PICO_FEMALE_PITCH_SCALE : picoos_single := Eval vm_compute in single_lit 125 100.
Definition PICO_FEMALE_FORMANT_SHIFT : picoos_single := Eval vm_compute in single_lit 1500 10.
Definition PICO_CHILD_PITCH_SCALE : picoos_single := Eval vm_compute in single_lit 150 100.
Definition PICO_CHILD_SPEED_SCALE : picoos_single := Eval vm_compute in single_lit 110 100.
Definition PICO_ROBOT_PITCH_SCALE : picoos_single := Eval vm_compute in single_lit 90 100.
Definition PICO_ROBOT_EMPHASIS_SCALE : picoos_single := Eval vm_compute in single_lit 50 100.
Definition PICO_SLOW_SPEED_SCALE : picoos_single := Eval vm_compute in single_lit 75 100.
Definition PICO_SLOW_PAUSE_SCALE : picoos_single := Eval vm_compute in single_lit 130 100.
Definition PICO_FAST_SPEED_SCALE : picoos_single := Eval vm_compute in single_lit 140 100.
Definition PICO_FAST_PAUSE_SCALE : picoos_single := Eval vm_compute in single_lit 80 100.

(* ===================================================================== *)
(** * picoqualityenhance.c *)
(* ===================================================================== *)

(** The two file-scope objects, [g_quality_ctx] and [g_quality_stats]. *)
Record quality_globals : Set := mk_globals {
  g_quality_ctx : pico_quality_context_t;
  g_quality_stats : pico_quality_stats_t
}.

(** Static storage: [.initialized = 0] and everything else zero. *)
Definition static_globals : quality_globals :=
  mk_globals
    (mk_context
       (mk_voice (S754_zero false) (S754_zero false) (S754_zero false) 0)
       (mk_prosody (S754_zero false) (S754_zero false) 0)
       (mk_filter (replicate 8 0) (replicate 8 0) 0)
       0 0)
    (mk_quality_stats 0 0 0 0).

Definition with_voice (g : quality_globals) (v : pico_voice_params_t)
  : quality_globals :=
  let x := g_quality_ctx g in
  mk_globals
    (mk_context v (prosody_params x) (noise_filter x) (random_seed x)
       (initialized x))
    (g_quality_stats g).

Definition with_prosody (g : quality_globals) (p : pico_prosody_params_t)
  : quality_globals :=
  let x := g_quality_ctx g in
  mk_globals
    (mk_context (voice_params x) p (noise_filter x) (random_seed x)
       (initialized x))
    (g_quality_stats g).

(** [pico_reset_quality_stats] *)
Definition pico_reset_quality_stats (g : quality_globals)
  : pico_status_t * quality_globals :=
  (PICO_OK, mk_globals (g_quality_ctx g) (mk_quality_stats 0 0 0 0)).

(** [pico_quality_init] *)
Definition pico_quality_init (g : quality_globals)
  : pico_status_t * quality_globals :=
  if negb (initialized (g_quality_ctx g) =? 0) then (PICO_OK, g)
  else
    let v := mk_voice PICO_DEFAULT_PITCH_SCALE PICO_DEFAULT_SPEED_SCALE
               PICO_DEFAULT_FORMANT_SHIFT PICO_DEFAULT_QUALITY_MODE in
    let p := mk_prosody PICO_DEFAULT_EMPHASIS_SCALE PICO_DEFAULT_PAUSE_SCALE
               PICO_DEFAULT_QUESTION_BOOST in
    let f := mk_filter (replicate (Z.to_nat PICO_NOISE_FILTER_ORDER) 0)
               (replicate (Z.to_nat PICO_NOISE_FILTER_ORDER) 0)
               PICO_NOISE_FILTER_ORDER in
    let g1 := mk_globals (mk_context v p f 12345 (initialized (g_quality_ctx g)))
                (g_quality_stats g) in
    let g2 := snd (pico_reset_quality_stats g1) in
    let x := g_quality_ctx g2 in
    (PICO_OK,
     mk_globals
       (mk_context (voice_params x) (prosody_params x) (noise_filter x)
          (random_seed x) 1)
       (g_quality_stats g2)).

(** [pico_quality_cleanup] *)
Definition pico_quality_cleanup (g : quality_globals)
  : pico_status_t * quality_globals :=
  if initialized (g_quality_ctx g) =? 0 then (PICO_OK, g)
  else
    let x := g_quality_ctx g in
    (PICO_OK,
     mk_globals
       (mk_context (voice_params x) (prosody_params x) (noise_filter x)
          (random_seed x) 0)
       (g_quality_stats g)).

(** [pico_set_quality_mode] *)
Definition pico_set_quality_mode (mode : Z) (g : quality_globals)
  : pico_status_t * quality_globals :=
  if (mode <? PICO_QUALITY_MODE_SPEED) || (mode >? PICO_QUALITY_MODE_QUALITY)
  then (PICO_ERR_OTHER, g)
  else
    let v := voice_params (g_quality_ctx g) in
    (PICO_OK,
     with_voice g
       (mk_voice (pitch_scale v) (speed_scale v) (formant_shift v) mode)).

(** [pico_get_quality_mode] *)
Definition pico_get_quality_mode (g : quality_globals) : Z :=
  quality_mode (voice_params (g_quality_ctx g)).

(** [pico_validate_voice_params] *)
Definition pico_validate_voice_params (params : option pico_voice_params_t)
  : pico_status_t :=
  match params with
  | None => PICO_ERR_NULLPTR_ACCESS
  | Some p =>
      if single_lt (pitch_scale p) PICO_PITCH_SCALE_MIN
         || single_gt (pitch_scale p) PICO_PITCH_SCALE_MAX
      then PICO_ERR_OTHER
      else if single_lt (speed_scale p) PICO_SPEED_SCALE_MIN
              || single_gt (speed_scale p) PICO_SPEED_SCALE_MAX
      then PICO_ERR_OTHER
      else if single_lt (formant_shift p) PICO_FORMANT_SHIFT_MIN
              || single_gt (formant_shift p) PICO_FORMANT_SHIFT_MAX
      then PICO_ERR_OTHER
      else if (quality_mode p <? PICO_QUALITY_MODE_SPEED)
              || (quality_mode p >? PICO_QUALITY_MODE_QUALITY)
      then PICO_ERR_OTHER
      else PICO_OK
  end.

(** [pico_set_voice_params] *)
Definition pico_set_voice_params (params : option pico_voice_params_t)
  (g : quality_globals) : pico_status_t * quality_globals :=
  match params with
  | None => (PICO_ERR_NULLPTR_ACCESS, g)
  | Some p =>
      let result := pico_validate_voice_params params in
      if negb (is_PICO_OK result) then (result, g)
      else (PICO_OK, with_voice g p)
  end.

(** [pico_get_voice_params]: the status and the caller's struct after the
    call. *)
Definition pico_get_voice_params (params : option pico_voice_params_t)
  (g : quality_globals) : pico_status_t * option pico_voice_params_t :=
  match params with
  | None => (PICO_ERR_NULLPTR_ACCESS, None)
  | Some _ => (PICO_OK, Some (voice_params (g_quality_ctx g)))
  end.

(** [pico_reset_voice_params] *)
Definition pico_reset_voice_params (g : quality_globals)
  : pico_status_t * quality_globals :=
  (PICO_OK,
   with_voice g
     (mk_voice PICO_DEFAULT_PITCH_SCALE PICO_DEFAULT_SPEED_SCALE
        PICO_DEFAULT_FORMANT_SHIFT PICO_DEFAULT_QUALITY_MODE)).

(** [pico_clamp_float] *)
Definition pico_clamp_float (value min max : picoos_single) : picoos_single :=
  if single_lt value min then min
  else if single_gt value max then max
  else value.

(** [pico_set_prosody_params]: the status, the caller's struct after the
    call, and the globals.  The clamped values are written into the
    caller's struct, which is then copied into the context. *)
Definition pico_set_prosody_params (params : option pico_prosody_params_t)
  (g : quality_globals)
  : pico_status_t * option pico_prosody_params_t * quality_globals :=
  match params with
  | None => (PICO_ERR_NULLPTR_ACCESS, None, g)
  | Some p =>
      let e := pico_clamp_float (emphasis_scale p) (single_lit 5 10)
                 (single_lit 20 10) in
      let s := pico_clamp_float (pause_scale p) (single_lit 5 10)
                 (single_lit 20 10) in
      let q := question_boost p in
      let q := if q <? 0 then 0 else q in
      let q := if q >? 100 then 100 else q in
      let p' := mk_prosody e s q in
      (PICO_OK, Some p', with_prosody g p')
  end.

(** [pico_get_prosody_params] *)
Definition pico_get_prosody_params (params : option pico_prosody_params_t)
  (g : quality_globals) : pico_status_t * option pico_prosody_params_t :=
  match params with
  | None => (PICO_ERR_NULLPTR_ACCESS, None)
  | Some _ => (PICO_OK, Some (prosody_params (g_quality_ctx g)))
  end.

(** [pico_reset_prosody_params] *)
Definition pico_reset_prosody_params (g : quality_globals)
  : pico_status_t * quality_globals :=
  (PICO_OK,
   with_prosody g
     (mk_prosody PICO_DEFAULT_EMPHASIS_SCALE PICO_DEFAULT_PAUSE_SCALE
        PICO_DEFAULT_QUESTION_BOOST)).

(** [pico_apply_voice_profile].  The two locals start as copies of the
    active sets; five of their fields are set to the defaults; the switch
    writes the overrides of the profile, and anything that is not one of
    the six named presets takes the [default:] label.  The statuses of
    the two setters are dropped. *)
Definition pico_apply_voice_profile (profile : Z) (g : quality_globals)
  : pico_status_t * quality_globals :=
  let params := voice_params (g_quality_ctx g) in
  let prosody := prosody_params (g_quality_ctx g) in
  let params := mk_voice PICO_DEFAULT_PITCH_SCALE PICO_DEFAULT_SPEED_SCALE
                  PICO_DEFAULT_FORMANT_SHIFT (quality_mode params) in
  let prosody := mk_prosody PICO_DEFAULT_EMPHASIS_SCALE
                   PICO_DEFAULT_PAUSE_SCALE (question_boost prosody) in
  let '(params, prosody) :=
    if profile =? PICO_VOICE_PROFILE_MALE then
      (mk_voice PICO_MALE_PITCH_SCALE (speed_scale params)
         PICO_MALE_FORMANT_SHIFT (quality_mode params), prosody)
    else if profile =? PICO_VOICE_PROFILE_FEMALE then
      (mk_voice PICO_FEMALE_PITCH_SCALE (speed_scale params)
         PICO_FEMALE_FORMANT_SHIFT (quality_mode params), prosody)
    else if profile =? PICO_VOICE_PROFILE_CHILD then
      (mk_voice PICO_CHILD_PITCH_SCALE PICO_CHILD_SPEED_SCALE
         (formant_shift params) (quality_mode params), prosody)
    else if profile =? PICO_VOICE_PROFILE_ROBOT then
      (mk_voice PICO_ROBOT_PITCH_SCALE (speed_scale params)
         (formant_shift params) (quality_mode params),
       mk_prosody PICO_ROBOT_EMPHASIS_SCALE (pause_scale prosody)
         (question_boost prosody))
    else if profile =? PICO_VOICE_PROFILE_SLOW then
      (mk_voice (pitch_scale params) PICO_SLOW_SPEED_SCALE
         (formant_shift params) (quality_mode params),
       mk_prosody (emphasis_scale prosody) PICO_SLOW_PAUSE_SCALE
         (question_boost prosody))
    else if profile =? PICO_VOICE_PROFILE_FAST then
      (mk_voice (pitch_scale params) PICO_FAST_SPEED_SCALE
         (formant_shift params) (quality_mode params),
       mk_prosody (emphasis_scale prosody) PICO_FAST_PAUSE_SCALE
         (question_boost prosody))
    else (params, prosody) in
  let g1 := snd (pico_set_voice_params (Some params) g) in
  let g2 := snd (pico_set_prosody_params (Some prosody) g1) in
  (PICO_OK, g2).

(** ** The documented contract, for comparison *)

(** The documented bounds of a voice parameter set. *)
Definition voice_params_in_bounds (p : pico_voice_params_t) : bool :=
  single_in_range (single_lit 5 10) (single_lit 20 10) (pitch_scale p)
  && single_in_range (single_lit 5 10) (single_lit 30 10) (speed_scale p)
  && single_in_range (single_lit (-500) 1) (single_lit 500 1) (formant_shift p)
  && (0 <=? quality_mode p) && (quality_mode p <=? 2).

(** The documented bounds of a prosody parameter set. *)
Definition prosody_params_in_bounds (p : pico_prosody_params_t) : bool :=
  single_in_range (single_lit 5 10) (single_lit 20 10) (emphasis_scale p)
  && single_in_range (single_lit 5 10) (single_lit 20 10) (pause_scale p)
  && (0 <=? question_boost p) && (question_boost p <=? 100).

(** The documented defaults: pitch 1.0, speed 1.0, formant shift 0,
    balanced mode; emphasis 1.0, pause 1.0, question boost 50. *)
Definition default_voice_params : pico_voice_params_t :=
  mk_voice (single_lit 1 1) (single_lit 1 1) (single_lit 0 1) 1.

Definition default_prosody_params : pico_prosody_params_t :=
  mk_prosody (single_lit 1 1) (single_lit 1 1) 50.

(** The presets as the header lists them. *)
Inductive voice_profile : Set :=
| ProfileDefault | ProfileMale | ProfileFemale | ProfileChild
| ProfileRobot | ProfileSlow | ProfileFast.

Definition profile_code (p : voice_profile) : Z :=
  match p with
  | ProfileDefault => 0 | ProfileMale => 1 | ProfileFemale => 2
  | ProfileChild => 3 | ProfileRobot => 4 | ProfileSlow => 5
  | ProfileFast => 6
  end.

Definition overlay_voice (p : voice_profile) (v : pico_voice_params_t)
  : pico_voice_params_t :=
  match p with
  | ProfileMale =>
      mk_voice (single_lit 80 100) (speed_scale v) (single_lit (-120) 1)
        (quality_mode v)
  | ProfileFemale =>
      mk_voice (single_lit 125 100) (speed_scale v) (single_lit 150 1)
        (quality_mode v)
  | ProfileChild =>
      mk_voice (single_lit 150 100) (single_lit 110 100) (formant_shift v)
        (quality_mode v)
  | ProfileRobot =>
      mk_voice (single_lit 90 100) (speed_scale v) (formant_shift v)
        (quality_mode v)
  | ProfileSlow =>
      mk_voice (pitch_scale v) (single_lit 75 100) (formant_shift v)
        (quality_mode v)
  | ProfileFast =>
      mk_voice (pitch_scale v) (single_lit 140 100) (formant_shift v)
        (quality_mode v)
  | ProfileDefault => v
  end.

Definition overlay_prosody (p : voice_profile) (r : pico_prosody_params_t)
  : pico_prosody_params_t :=
  match p with
  | ProfileRobot =>
      mk_prosody (single_lit 50 100) (pause_scale r) (question_boost r)
  | ProfileSlow =>
      mk_prosody (emphasis_scale r) (single_lit 13 10) (question_boost r)
  | ProfileFast =>
      mk_prosody (emphasis_scale r) (single_lit 8 10) (question_boost r)
  | _ => r
  end.

(** The reading of the profile operation under which both sets start
    from the documented defaults. *)
Definition profile_on_defaults (p : voice_profile) (g : quality_globals)
  : Prop :=
  let g' := snd (pico_apply_voice_profile (profile_code p) g) in
  voice_params (g_quality_ctx g') = overlay_voice p default_voice_params
  /\ prosody_params (g_quality_ctx g')
     = overlay_prosody p default_prosody_params.

(** The integer clamp the prosody setter applies to the question boost. *)
Definition clamp_boost (q : Z) : Z := Z.max 0 (Z.min 100 q).

(** The quality mode of the active voice parameters is one of the three
    presets. *)
Definition quality_mode_valid (g : quality_globals) : Prop :=
  0 <= quality_mode (voice_params (g_quality_ctx g)) <= 2.

(** The calls of the parameter interface. *)
Inductive quality_call : Set :=
| CallInit
| CallCleanup
| CallSetQualityMode (mode : Z)
| CallSetVoiceParams (params : option pico_voice_params_t)
| CallResetVoiceParams
| CallSetProsodyParams (params : option pico_prosody_params_t)
| CallResetProsodyParams
| CallApplyVoiceProfile (profile : Z)
| CallResetQualityStats.

Definition run_quality_call (k : quality_call) (g : quality_globals)
  : quality_globals :=
  match k with
  | CallInit => snd (pico_quality_init g)
  | CallCleanup => snd (pico_quality_cleanup g)
  | CallSetQualityMode mode => snd (pico_set_quality_mode mode g)
  | CallSetVoiceParams params => snd (pico_set_voice_params params g)
  | CallResetVoiceParams => snd (pico_reset_voice_params g)
  | CallSetProsodyParams params => snd (pico_set_prosody_params params g)
  | CallResetProsodyParams => snd (pico_reset_prosody_params g)
  | CallApplyVoiceProfile profile => snd (pico_apply_voice_profile profile g)
  | CallResetQualityStats => snd (pico_reset_quality_stats g)
  end.

(** The globals after a sequence of calls, starting from static storage. *)
Definition run_quality_calls (ks : list quality_call) : quality_globals :=
  fold_left (fun g k => run_quality_call k g) ks static_globals.

(** The globals after initialization, the choice of the quality preset,
    and a custom prosody with question boost 80. *)
Definition custom_globals : quality_globals :=
  run_quality_calls
    [CallInit; CallSetQualityMode PICO_QUALITY_MODE_QUALITY;
     CallSetProsodyParams
       (Some (mk_prosody (single_lit 14 10) (single_lit 13 10) 80))].

(** The defaults with the two fields a profile call carries over from
    the active sets: the quality mode and the (clamped) question boost. *)
Definition defaults_keeping_mode (g : quality_globals) : pico_voice_params_t :=
  mk_voice (pitch_scale default_voice_params) (speed_scale default_voice_params)
    (formant_shift default_voice_params)
    (quality_mode (voice_params (g_quality_ctx g))).

Definition defaults_keeping_boost (g : quality_globals) : pico_prosody_params_t :=
  mk_prosody (emphasis_scale default_prosody_params)
    (pause_scale default_prosody_params)
    (clamp_boost (question_boost (prosody_params (g_quality_ctx g)))).

(* ===================================================================== *)
(** * Tactics *)
(* ===================================================================== *)

(** Closes goals about [mod] and [/] by constants. *)
Ltac zdivmod := Z.div_mod_to_equations; lia.

Ltac unfold_casts :=
  unfold to_uint8, to_uint16, to_uint32, to_int8, to_int16, to_int32,
    to_unsigned, to_signed in *;
  simpl Z.sub in *;
  change (2 ^ 7) with 128 in *; change (2 ^ 8) with 256 in *;
  change (2 ^ 15) with 32768 in *; change (2 ^ 16) with 65536 in *;
  change (2 ^ 31) with 2147483648 in *;
  change (2 ^ 32) with 4294967296 in *.


(** Replaces every literal of the goal by the number it denotes. *)
Ltac eval_lits :=
  repeat match goal with
         | |- context [single_lit ?a ?b] =>
             let v := eval vm_compute in (single_lit a b) in
             change (single_lit a b) with v
         end.

Ltac unfold_limits :=
  unfold PICO_DEFAULT_QUALITY_MODE in *;
  unfold PICO_PITCH_SCALE_MIN, PICO_PITCH_SCALE_MAX, PICO_SPEED_SCALE_MIN,
    PICO_SPEED_SCALE_MAX, PICO_FORMANT_SHIFT_MIN, PICO_FORMANT_SHIFT_MAX,
    PICO_QUALITY_MODE_SPEED, PICO_QUALITY_MODE_QUALITY,
    PICO_QUALITY_MODE_BALANCED in *.

(** Runs the switch of [pico_apply_voice_profile] on a known profile. *)
Ltac profile_switch :=
  cbv beta iota zeta
    delta [pico_apply_voice_profile profile_code Z.eqb Pos.eqb
           PICO_VOICE_PROFILE_DEFAULT PICO_VOICE_PROFILE_MALE
           PICO_VOICE_PROFILE_FEMALE PICO_VOICE_PROFILE_CHILD
           PICO_VOICE_PROFILE_ROBOT PICO_VOICE_PROFILE_SLOW
           PICO_VOICE_PROFILE_FAST].

(* ===================================================================== *)
(** * picofixedpoint.h and picofixedpoint.c: the other operations *)
(* ===================================================================== *)

Definition to_int64 := to_signed 64.

Definition is_int32 (x : Z) : Prop := -2147483648 <= x <= 2147483647.

Definition PICO_Q31_SHIFT : Z := 31.

(** [pico_q15_mac]: the sum is formed in [int] and narrowed by the
    return. *)
Definition pico_q15_mac (acc a b : Z) : Z :=
  to_int16 (acc + pico_q15_mult a b).

(** [pico_q31_mult]: the 64-bit product, shifted right by 31, narrowed. *)
Definition pico_q31_mult (a b : Z) : Z :=
  to_int32 (Z.shiftr (to_int64 (a * b)) PICO_Q31_SHIFT).

(** [a[i]] for an array of 16-bit values. *)
Definition q15_at (a : list Z) (i : Z) : Z := nth (Z.to_nat i) a 0.

(** The loop of [pico_q15_dot_product], with [n] iterations left.  The
    accumulator is a [pico_q31_t]; the sum is reduced to 32 bits, which
    changes nothing as long as it has not left them. *)
Fixpoint dot_product_loop (a b : list Z) (n : nat) (i acc : Z) : Z :=
  match n with
  | O => acc
  | S n' =>
      dot_product_loop a b n' (i + 1)
        (to_int32 (acc + to_int32 (q15_at a i * q15_at b i)))
  end.

(** [pico_q15_dot_product] *)
Definition pico_q15_dot_product (a b : list Z) (len : Z) : Z :=
  Z.shiftr (dot_product_loop a b (Z.to_nat len) 0 0) PICO_Q15_SHIFT.

(** The loop of [pico_q15_vector_add], with [n] iterations left. *)
Fixpoint vector_add_loop (a b : list Z) (n : nat) (i : Z) (out : list Z)
  : list Z :=
  match n with
  | O => out
  | S n' =>
      vector_add_loop a b n' (i + 1)
        (<[Z.to_nat i := pico_q15_add_sat (q15_at a i) (q15_at b i)]> out)
  end.

(** [pico_q15_vector_add]: the contents of [out] after the call. *)
Definition pico_q15_vector_add (a b out : list Z) (len : Z) : list Z :=
  vector_add_loop a b (Z.to_nat len) 0 out.

(** The loop of [pico_q15_vector_scale], with [n] iterations left. *)
Fixpoint vector_scale_loop (input : list Z) (scale : Z) (n : nat) (i : Z)
  (out : list Z) : list Z :=
  match n with
  | O => out
  | S n' =>
      vector_scale_loop input scale n' (i + 1)
        (<[Z.to_nat i := pico_q15_mult (q15_at input i) scale]> out)
  end.

(** [pico_q15_vector_scale] *)
Definition pico_q15_vector_scale (input : list Z) (scale : Z) (out : list Z)
  (len : Z) : list Z :=
  vector_scale_loop input scale (Z.to_nat len) 0 out.

(** The Newton loop of [pico_q15_sqrt_approx], with [n] iterations left.
    The division is the only partial operation: there is no result when
    the guess is zero. *)
Fixpoint sqrt_approx_loop (x : Z) (n : nat) (guess : Z) : option Z :=
  match n with
  | O => Some guess
  | S n' =>
      let x_scaled := to_int32 (Z.shiftl x PICO_Q15_SHIFT) in
      if guess =? 0 then None
      else
        let div := to_int32 (Z.quot x_scaled guess) in
        sqrt_approx_loop x n' (Z.shiftr (to_int32 (guess + div)) 1)
  end.

(** [pico_q15_sqrt_approx] *)
Definition pico_q15_sqrt_approx (x : Z) : option Z :=
  if x <=? 0 then Some 0
  else if x =? PICO_Q15_ONE then Some (to_int16 PICO_Q15_ONE)
  else
    match sqrt_approx_loop x 4 (Z.shiftr (to_int32 x) 1) with
    | Some guess => Some (to_int16 guess)
    | None => None
    end.

(** The sum of the first [n] products of two arrays. *)
Fixpoint dot_sum (a b : list Z) (n : nat) : Z :=
  match n with
  | O => 0
  | S n' => dot_sum a b n' + q15_at a (Z.of_nat n') * q15_at b (Z.of_nat n')
  end.

(** The check of one argument of the square root against its exact
    value: the result exists, fits 16 bits and is not below the integer
    square root of [x * 2^15]; from one half upwards it is above it by one
    at most. *)
Definition sqrt_approx_ok (x : Z) : bool :=
  match pico_q15_sqrt_approx x with
  | Some r =>
      (1 <=? r) && (r <=? 32767) && (x * 32768 <? (r + 1) * (r + 1))
      && ((x <? 16384) || ((r - 1) * (r - 1) <=? x * 32768))
  | None => false
  end.

(** [sqrt_approx_ok] on [x], [x + 1], ..., [n] arguments in all. *)
Fixpoint sqrt_approx_ok_from (n : nat) (x : Z) : bool :=
  match n with
  | O => true
  | S n' => sqrt_approx_ok x && sqrt_approx_ok_from n' (x + 1)
  end.

(* ===================================================================== *)
(** * picodtcache.h and picodtcache.c: hashing and statistics *)
(* ===================================================================== *)





(** [picodt_cache_get_stats]: the caller's struct after the call. *)
Definition picodt_cache_get_stats (cache : option picodt_cache_t)
  (st : option picodt_cache_stats_t) : option picodt_cache_stats_t :=
  match cache, st with
  | Some c, Some _ => Some (stats c)
  | _, _ => st
  end.

(** The slots of the window of [hash] all hold a valid entry. *)
Definition window_full (c : picodt_cache_t) (hash : Z) : Prop :=
  forall i, 0 <= i < 4 ->
    valid (entry_at c (probe_index (get_cache_index hash) i)) <> 0.

(** The fields of a cache are values of their C types. *)
Definition entry_typed (e : picodt_cache_entry_t) : Prop :=
  is_uint8 (access_count e) /\ (valid e = 0 \/ valid e = 1).

(* ===================================================================== *)
(** * picoqualityenhance.c: the noise shaping filter *)
(* ===================================================================== *)










(** [pico_get_quality_stats] *)
Definition pico_get_quality_stats (st : option pico_quality_stats_t)
  (g : quality_globals) : pico_status_t * option pico_quality_stats_t :=
  match st with
  | None => (PICO_ERR_NULLPTR_ACCESS, None)
  | Some _ => (PICO_OK, Some (g_quality_stats g))
  end.


(** A sequence of calls on a cache, and the cache after them. *)
Inductive cache_call : Set :=
| CacheLookup (hash tree : Z)
| CacheInsert (hash tree pdf : Z).

Definition run_cache_call (k : cache_call) (c : picodt_cache_t)
  : picodt_cache_t :=
  match k with
  | CacheLookup hash tree => after_lookup hash tree c
  | CacheInsert hash tree pdf => after_insert hash tree pdf c
  end.

Definition run_cache_calls (ks : list cache_call) (c : picodt_cache_t)
  : picodt_cache_t :=
  fold_left (fun c k => run_cache_call k c) ks c.

(** The flag and the cell a lookup leaves behind. *)
Definition lookup_answer (c : picodt_cache_t) (hash tree out : Z)
  : Z * option Z :=
  let '(r, _, o) := picodt_cache_lookup (Some c) hash tree (Some out) in
  (r, o).

(** The fresh cache after four keys of hash 0 were inserted, filling the
    window of that hash, and the first of them was looked up again. *)
Definition cache_full_window : picodt_cache_t :=
  after_lookup 0 0
    (after_insert 0 3 13
       (after_insert 0 2 12
          (after_insert 0 1 11 (after_insert 0 0 10 fresh_cache)))).

(** The common shape of the array loops: cell [i] receives [g i], for
    [n] cells from [i] on. *)
Fixpoint store_loop (g : Z -> Z) (n : nat) (i : Z) (l : list Z) : list Z :=
  match n with
  | O => l
  | S n' => store_loop g n' (i + 1) (<[Z.to_nat i := g i]> l)
  end.


(** The active voice parameters pass [pico_validate_voice_params]. *)
Definition active_voice_validated (g : quality_globals) : Prop :=
  pico_validate_voice_params (Some (voice_params (g_quality_ctx g))) = PICO_OK.

(* ===================================================================== *)
(** * Properties: machine integers *)
(* ===================================================================== *)

Lemma to_int16_id x : is_int16 x -> to_int16 x = x.
Proof. unfold is_int16; intros H; unfold_casts; zdivmod. Qed.

Lemma to_int32_id x : -2147483648 <= x <= 2147483647 -> to_int32 x = x.
Proof. intros H; unfold_casts; zdivmod. Qed.

Lemma to_uint8_id x : is_uint8 x -> to_uint8 x = x.
Proof. unfold is_uint8; intros H; unfold_casts; zdivmod. Qed.

Lemma to_uint16_id x : is_uint16 x -> to_uint16 x = x.
Proof. unfold is_uint16; intros H; unfold_casts; zdivmod. Qed.

Lemma to_uint32_id x : is_uint32 x -> to_uint32 x = x.
Proof. unfold is_uint32; intros H; unfold_casts; zdivmod. Qed.

Lemma to_uint32_range x : is_uint32 (to_uint32 x).
Proof. unfold is_uint32; unfold_casts; zdivmod. Qed.

Lemma to_int16_range x : is_int16 (to_int16 x).
Proof. unfold is_int16; unfold_casts; zdivmod. Qed.

Lemma land_255 x : Z.land x 255 = x mod 256.
Proof. change 255 with (Z.ones 8). now rewrite Z.land_ones by lia. Qed.

Lemma land_65535 x : Z.land x 65535 = x mod 65536.
Proof. change 65535 with (Z.ones 16). now rewrite Z.land_ones by lia. Qed.

(* ===================================================================== *)
(** * Properties: Q15 saturating addition *)
(* ===================================================================== *)

Lemma PICO_Q15_limits : PICO_Q15_MIN = -32768 /\ PICO_Q15_MAX = 32767.
Proof. split; reflexivity. Qed.

Example pico_q15_add_sat_saturates_high : pico_q15_add_sat 32767 1 = 32767.
Proof. reflexivity. Qed.

Example pico_q15_add_sat_saturates_low : pico_q15_add_sat (-32768) (-1) = -32768.
Proof. reflexivity. Qed.

(** C7.  For Q15 operands [a] and [b], [pico_q15_add_sat a b] lies in
    [-32768, 32767], it is the sum [a + b] clamped into that range (the
    32-bit intermediate sum never wraps and the narrowing cast changes
    nothing), and it is the plain sum whenever the sum is in range. *)
Theorem pico_q15_add_sat_correct (a b : Z) :
  is_int16 a -> is_int16 b ->
  is_int16 (pico_q15_add_sat a b)
  /\ pico_q15_add_sat a b = q15_clamp (a + b)
  /\ (is_int16 (a + b) -> pico_q15_add_sat a b = a + b).
Proof.
  unfold is_int16; intros Ha Hb.
  assert (Hr : to_int32 (a + b) = a + b) by (apply to_int32_id; lia).
  unfold pico_q15_add_sat, q15_clamp.
  destruct PICO_Q15_limits as [-> ->]. rewrite Hr.
  destruct (Z.gtb_spec (a + b) 32767) as [Hhi | Hhi].
  - repeat split; lia.
  - destruct (Z.ltb_spec (a + b) (-32768)) as [Hlo | Hlo].
    + repeat split; lia.
    + rewrite to_int16_id by (unfold is_int16; lia). repeat split; lia.
Qed.

Lemma pico_q15_add_sat_correct_witness :
  is_int16 100 /\ is_int16 200 /\ pico_q15_add_sat 100 200 = 300.
Proof.
  assert (Ha : is_int16 100) by (unfold is_int16; lia).
  assert (Hb : is_int16 200) by (unfold is_int16; lia).
  destruct (pico_q15_add_sat_correct 100 200 Ha Hb) as (_ & _ & Hsum).
  split; [exact Ha | split; [exact Hb |]].
  apply Hsum. unfold is_int16; simpl; lia.
Defined.

(* ===================================================================== *)
(** * Properties: the white noise source *)
(* ===================================================================== *)

Lemma upper_half_of_uint32 s :
  is_uint32 s -> Z.land (Z.shiftr s 16) 0xFFFF = s / 65536.
Proof.
  unfold is_uint32; intros H.
  rewrite Z.shiftr_div_pow2 by lia. change (2 ^ 16) with 65536.
  rewrite land_65535. zdivmod.
Qed.

Lemma white_noise_sample s :
  is_uint32 s ->
  to_int16 (to_int16 (Z.land (Z.shiftr s 16) 0xFFFF) - 16384)
  = sample_of_state s.
Proof.
  intros H. rewrite upper_half_of_uint32 by exact H.
  unfold sample_of_state, is_uint32 in *.
  assert (Hhi : 0 <= s / 65536 < 65536) by zdivmod.
  generalize dependent (s / 65536); intros hi Hhi.
  destruct (Z.ltb_spec hi 49152); unfold_casts; zdivmod.
Qed.

Lemma sample_of_state_range s :
  is_uint32 s ->
  is_int16 (sample_of_state s)
  /\ (sample_of_state s + 16384) mod 65536 = s / 65536.
Proof.
  unfold is_uint32, is_int16, sample_of_state; intros H.
  assert (Hhi : 0 <= s / 65536 < 65536) by zdivmod.
  generalize dependent (s / 65536); intros hi Hhi.
  destruct (Z.ltb_spec hi 49152); split; zdivmod.
Qed.

Lemma pico_generate_white_noise_eq seed :
  pico_generate_white_noise seed
  = (sample_of_state (lcg_iter 1 seed), lcg_iter 1 seed).
Proof.
  unfold pico_generate_white_noise. simpl lcg_iter.
  fold (to_unsigned 32 (seed * 1664525 + 1013904223)). fold to_uint32.
  now rewrite white_noise_sample by apply to_uint32_range.
Qed.

Lemma lcg_iter_S n seed : lcg_iter (S n) seed = lcg_iter 1 (lcg_iter n seed).
Proof. revert seed; induction n as [| n IH]; intros seed; [reflexivity |].
  change (lcg_iter (S (S n)) seed) with (lcg_iter (S n) (lcg_iter 1 seed)).
  rewrite IH. reflexivity.
Qed.

Lemma pico_white_noise_run_eq n : forall seed,
  pico_white_noise_run n seed
  = (map (fun k => sample_of_state (lcg_iter (S k) seed)) (seq 0 n),
     lcg_iter n seed).
Proof.
  induction n as [| n IH]; intros seed; [reflexivity |].
  cbn [pico_white_noise_run]. rewrite pico_generate_white_noise_eq, IH.
  cbn [seq map]. rewrite <- seq_shift, map_map. reflexivity.
Qed.

(** C4.  For a 32-bit seed, one call of [pico_generate_white_noise]
    leaves [seed * 1664525 + 1013904223] modulo [2^32] in the seed and
    returns a 16-bit sample that is the upper 16 bits of the new seed
    less 16384 (modulo [2^16]); [n] calls return the samples of the
    first [n] states of that recurrence, so the sequence is a function of
    the initial seed alone, and from 12345 it starts
    -15047, -15300, 19212, 25225, -22281. *)
Theorem pico_generate_white_noise_lcg (seed : Z) :
  is_uint32 seed ->
  (let '(sample, seed') := pico_generate_white_noise seed in
   seed' = (seed * 1664525 + 1013904223) mod 2 ^ 32
   /\ sample = sample_of_state seed'
   /\ is_int16 sample
   /\ (sample + 16384) mod 65536 = seed' / 65536)
  /\ (forall n,
        pico_white_noise_run n seed
        = (map (fun k => sample_of_state (lcg_iter (S k) seed)) (seq 0 n),
           lcg_iter n seed))
  /\ fst (pico_white_noise_run 5 12345)
     = [-15047; -15300; 19212; 25225; -22281].
Proof.
  intros Hseed. split; [| split].
  - rewrite pico_generate_white_noise_eq. simpl lcg_iter.
    split; [reflexivity |]. split; [reflexivity |].
    apply sample_of_state_range.
    apply (to_uint32_range (seed * 1664525 + 1013904223)).
  - intros n. apply pico_white_noise_run_eq.
  - reflexivity.
Qed.

Lemma pico_generate_white_noise_lcg_witness :
  is_uint32 12345
  /\ (let '(sample, seed') := pico_generate_white_noise 12345 in
      seed' = (12345 * 1664525 + 1013904223) mod 2 ^ 32
      /\ sample = sample_of_state seed'
      /\ is_int16 sample
      /\ (sample + 16384) mod 65536 = seed' / 65536).
Proof.
  assert (H : is_uint32 12345) by (unfold is_uint32; lia).
  split; [exact H |].
  exact (proj1 (pico_generate_white_noise_lcg 12345 H)).
Defined.

(* ===================================================================== *)
(** * Properties: the probe window *)
(* ===================================================================== *)

Lemma get_cache_index_eq h : get_cache_index h = h mod 256.
Proof.
  unfold get_cache_index, PICO_DT_CACHE_SIZE. simpl Z.sub.
  rewrite land_255. apply to_uint16_id. unfold is_uint16. zdivmod.
Qed.

Lemma probe_index_eq idx i : probe_index idx i = (idx + i) mod 256.
Proof.
  unfold probe_index, PICO_DT_CACHE_SIZE. simpl Z.sub.
  rewrite land_255. apply to_uint16_id. unfold is_uint16. zdivmod.
Qed.

Lemma probe_index_range idx i : 0 <= probe_index idx i < 256.
Proof. rewrite probe_index_eq. zdivmod. Qed.

Lemma get_cache_index_range h : 0 <= get_cache_index h < 256.
Proof. rewrite get_cache_index_eq. zdivmod. Qed.

Lemma probe_index_0 h : probe_index (get_cache_index h) 0 = get_cache_index h.
Proof. rewrite probe_index_eq, get_cache_index_eq. zdivmod. Qed.

Lemma probe_index_inj idx i j :
  0 <= i < 4 -> 0 <= j < 4 -> probe_index idx i = probe_index idx j -> i = j.
Proof. rewrite !probe_index_eq. intros Hi Hj H. zdivmod. Qed.

Lemma probe_window_eq h :
  probe_window h
  = [probe_index (get_cache_index h) 0; probe_index (get_cache_index h) 1;
     probe_index (get_cache_index h) 2; probe_index (get_cache_index h) 3].
Proof. reflexivity. Qed.

(* ===================================================================== *)
(** * Properties: reading and writing slots *)
(* ===================================================================== *)

Lemma cache_wf_length c : cache_wf c -> length (entries c) = 256%nat.
Proof. intros H; exact H. Qed.

Lemma entry_at_insert_eq c c1 idx e :
  cache_wf c -> 0 <= idx < 256 ->
  entries c1 = <[Z.to_nat idx := e]> (entries c) ->
  entry_at c1 idx = e.
Proof.
  intros Hwf Hidx Hc1. unfold entry_at. rewrite Hc1.
  apply list_lookup_total_insert_eq.
  rewrite (cache_wf_length c Hwf). lia.
Qed.

Lemma entry_at_insert_ne c c1 idx k e :
  0 <= idx -> 0 <= k -> idx <> k ->
  entries c1 = <[Z.to_nat idx := e]> (entries c) ->
  entry_at c1 k = entry_at c k.
Proof.
  intros Hidx Hk Hne Hc1. unfold entry_at. rewrite Hc1.
  apply list_lookup_total_insert_ne. lia.
Qed.

Lemma entry_matches_record_hit c idx b k h t :
  entry_matches (entry_at (record_hit c idx b) k) h t
  = entry_matches (entry_at c k) h t.
Proof.
  unfold entry_at, record_hit. cbn [entries].
  rewrite list_lookup_total_insert. case_decide as Hd; [| reflexivity].
  destruct Hd as [<- _]. reflexivity.
Qed.

Lemma entry_at_reset (l : list picodt_cache_entry_t) (k : nat) :
  valid ((reset_entry <$> l) !!! k) = 0.
Proof.
  destruct (decide (k < length l)%nat) as [Hlt | Hge].
  - rewrite (list_lookup_total_fmap reset_entry l k Hlt). reflexivity.
  - rewrite list_lookup_total_alt, list_lookup_fmap.
    rewrite (lookup_ge_None_2 l k) by lia. reflexivity.
Qed.

Lemma entry_matches_invalid e h t : valid e = 0 -> entry_matches e h t = false.
Proof. intros H. unfold entry_matches. now rewrite H. Qed.

Lemma entry_matches_stored h t p clk : entry_matches (mk_entry h p t 1 clk) h t = true.
Proof. unfold entry_matches. cbn. now rewrite !Z.eqb_refl. Qed.

Lemma entry_matches_stored_inv h t p clk h' t' :
  entry_matches (mk_entry h p t 1 clk) h' t' = true -> h' = h /\ t' = t.
Proof.
  unfold entry_matches. cbn. intros H.
  apply andb_true_iff in H as [H1 H2]. lia.
Qed.

(* ===================================================================== *)
(** * Properties: the three operations, one step at a time *)
(* ===================================================================== *)

(** The loop of [find_lru_entry] returns its current candidate or one of
    the slots it still has to visit. *)
Lemma find_lru_loop_slot c start n : forall i lru min_access,
  find_lru_loop c start n i lru min_access = lru
  \/ exists k, i <= k < i + Z.of_nat n
               /\ find_lru_loop c start n i lru min_access = probe_index start k.
Proof.
  induction n as [| n IH]; intros i lru min_access; [now left |].
  cbn [find_lru_loop].
  destruct (valid (entry_at c (probe_index start i)) =? 0).
  { right. exists i. split; [lia | reflexivity]. }
  destruct (access_count (entry_at c (probe_index start i)) <? min_access).
  - destruct (IH (i + 1) (probe_index start i)
                (access_count (entry_at c (probe_index start i))))
      as [-> | (k & Hk & ->)].
    + right. exists i. split; [lia | reflexivity].
    + right. exists k. split; [lia | reflexivity].
  - destruct (IH (i + 1) lru min_access) as [-> | (k & Hk & ->)].
    + now left.
    + right. exists k. split; [lia | reflexivity].
Qed.

Lemma find_lru_entry_slot c h :
  exists k, 0 <= k < 4
            /\ find_lru_entry c (get_cache_index h)
               = probe_index (get_cache_index h) k.
Proof.
  unfold find_lru_entry.
  destruct (find_lru_loop_slot c (get_cache_index h) 4 0 (get_cache_index h) 255)
    as [-> | (k & Hk & ->)].
  - exists 0. split; [lia | now rewrite probe_index_0].
  - exists k. split; [lia | reflexivity].
Qed.

(** What an insert into an enabled cache does to the array: one slot of
    the window of the hash receives the new entry, stamped with the
    clock. *)
Lemma picodt_cache_insert_slot c h t p :
  enabled c <> 0 ->
  exists k c1,
    0 <= k < 4
    /\ picodt_cache_insert (Some c) h t p = Some c1
    /\ enabled c1 = enabled c
    /\ entries c1
       = <[Z.to_nat (probe_index (get_cache_index h) k)
           := mk_entry h p t 1 (clock c)]> (entries c).
Proof.
  intros Hen. unfold picodt_cache_insert, picodt_cache_is_enabled.
  destruct (Z.eqb_spec (enabled c) 0) as [He | _]; [contradiction |].
  cbn [Z.eqb].
  destruct (valid (entry_at c (get_cache_index h)) =? 0).
  - exists 0. eexists. rewrite probe_index_0.
    split; [lia | split; [reflexivity | split; reflexivity]].
  - destruct (find_lru_entry_slot c h) as (k & Hk & ->).
    exists k. eexists.
    split; [lia | split; [reflexivity |]].
    destruct (valid (entry_at c (probe_index (get_cache_index h) k)) =? 0);
      split; reflexivity.
Qed.

(** The lookup of an enabled cache, told by the first matching step. *)
Lemma picodt_cache_lookup_first_match c h t out :
  enabled c <> 0 ->
  picodt_cache_lookup (Some c) h t (Some out)
  = match first_match c h t with
    | Some i =>
        (1, Some (record_hit c (probe_index (get_cache_index h) i)
                    (negb (i =? 0))),
         Some (pdf_index (entry_at c (probe_index (get_cache_index h) i))))
    | None => (0, Some (record_miss c), Some out)
    end.
Proof.
  intros Hen. unfold picodt_cache_lookup, picodt_cache_is_enabled.
  destruct (Z.eqb_spec (enabled c) 0) as [He | _]; [contradiction |].
  cbn [Z.eqb]. unfold first_match, matches_at. cbn [List.find].
  rewrite probe_index_0.
  destruct (entry_matches (entry_at c (get_cache_index h)) h t).
  { cbn. now rewrite probe_index_0. }
  cbn [lookup_probe]. change (1 + 1) with 2. change (2 + 1) with 3.
  repeat match goal with
         | |- context [entry_matches ?e h t] =>
             destruct (entry_matches e h t); [reflexivity |]
         end.
  reflexivity.
Qed.

(** A lookup leaves the keys and the validity of every slot alone. *)
Lemma picodt_cache_lookup_keeps_keys c h t out r c' o :
  picodt_cache_lookup (Some c) h t (Some out) = (r, Some c', o) ->
  length (entries c') = length (entries c)
  /\ enabled c' = enabled c
  /\ forall k h' t',
       entry_matches (entry_at c' k) h' t' = entry_matches (entry_at c k) h' t'.
Proof.
  destruct (Z.eq_dec (enabled c) 0) as [He | Hen].
  - unfold picodt_cache_lookup, picodt_cache_is_enabled. rewrite He.
    cbn [Z.eqb]. intros [= _ <- _]. auto.
  - rewrite picodt_cache_lookup_first_match by exact Hen.
    destruct (first_match c h t); intros [= _ <- _].
    + split; [| split].
      * unfold record_hit. cbn [entries]. apply length_insert.
      * reflexivity.
      * intros. apply entry_matches_record_hit.
    + auto.
Qed.

(** A lookup that misses in an enabled cache saw no live entry for the
    key at any step. *)
Lemma picodt_cache_lookup_miss c h t out c' o :
  enabled c <> 0 ->
  picodt_cache_lookup (Some c) h t (Some out) = (0, Some c', o) ->
  forall i, 0 <= i < 4 -> matches_at c h t i = false.
Proof.
  intros Hen. rewrite picodt_cache_lookup_first_match by exact Hen.
  destruct (first_match c h t) eqn:Hfm; [intros [=] |].
  intros _ i Hi.
  pose proof (find_none _ _ Hfm) as Hnone.
  assert (Hin : In i [0; 1; 2; 3]) by (cbn; lia).
  exact (Hnone i Hin).
Qed.

(* ===================================================================== *)
(** * Properties: insert followed by lookup *)
(* ===================================================================== *)

Lemma matching_slots_nil c h t :
  matching_slots c h t = [] ->
  forall i, 0 <= i < 4 -> matches_at c h t i = false.
Proof.
  unfold matching_slots, matches_at. rewrite probe_window_eq.
  cbn [List.filter]. intros H i Hi.
  destruct (entry_matches (entry_at c (probe_index (get_cache_index h) 0)) h t)
    eqn:E0; [discriminate |].
  destruct (entry_matches (entry_at c (probe_index (get_cache_index h) 1)) h t)
    eqn:E1; [discriminate |].
  destruct (entry_matches (entry_at c (probe_index (get_cache_index h) 2)) h t)
    eqn:E2; [discriminate |].
  destruct (entry_matches (entry_at c (probe_index (get_cache_index h) 3)) h t)
    eqn:E3; [discriminate |].
  assert (Hc : i = 0 \/ i = 1 \/ i = 2 \/ i = 3) by lia.
  destruct Hc as [-> | [-> | [-> | ->]]]; assumption.
Qed.

Lemma first_match_some c h t i :
  first_match c h t = Some i -> 0 <= i < 4 /\ matches_at c h t i = true.
Proof.
  intros H. apply find_some in H as [Hin Hm]. split; [| exact Hm].
  cbn in Hin. lia.
Qed.

Lemma first_match_none c h t i :
  first_match c h t = None -> 0 <= i < 4 -> matches_at c h t i = false.
Proof.
  intros H Hi. apply (find_none _ _ H). cbn. lia.
Qed.

(** ** One slot of the window is overwritten *)

Section InsertStep.

(** [c1] is [c] with the entry for [(h, t)] written at step [k] of the
    probe of [h]. *)
Variables (c c1 : picodt_cache_t) (h t p clk k : Z).
Hypothesis Hwf : cache_wf c.
Hypothesis Hk : 0 <= k < 4.
Hypothesis Hc1 :
  entries c1
  = <[Z.to_nat (probe_index (get_cache_index h) k) := mk_entry h p t 1 clk]>
      (entries c).

(** The slot the insert wrote is found by the probe of its key. *)
Lemma matches_at_written : matches_at c1 h t k = true.
Proof using Hwf Hc1.
  unfold matches_at.
  rewrite (entry_at_insert_eq c c1 _ _ Hwf (probe_index_range _ _) Hc1).
  apply entry_matches_stored.
Qed.

(** Any other step of any probe sees what it saw before the insert. *)
Lemma matches_at_elsewhere h' t' i :
  probe_index (get_cache_index h') i <> probe_index (get_cache_index h) k ->
  matches_at c1 h' t' i = matches_at c h' t' i.
Proof using Hc1.
  intros Hne. unfold matches_at.
  rewrite (entry_at_insert_ne c c1 (probe_index (get_cache_index h) k)
             (probe_index (get_cache_index h') i) (mk_entry h p t 1 clk));
    [reflexivity | | | | exact Hc1].
  - apply probe_index_range.
  - apply probe_index_range.
  - congruence.
Qed.

(** A step of a probe that lands on the written slot and matches is
    step [k] of the probe of [h], for the tree [t]. *)
Lemma matches_at_written_inv h' t' n :
  0 <= n < 4 ->
  matches_at c1 h' t' n = true ->
  probe_index (get_cache_index h') n = probe_index (get_cache_index h) k ->
  h' = h /\ t' = t /\ n = k.
Proof using Hwf Hk Hc1.
  intros Hn Hm Heq. unfold matches_at in Hm. rewrite Heq in Hm.
  rewrite (entry_at_insert_eq c c1 _ _ Hwf (probe_index_range _ _) Hc1) in Hm.
  apply entry_matches_stored_inv in Hm as [-> ->].
  repeat split. now apply (probe_index_inj (get_cache_index h)).
Qed.

(** Writing a key that the window does not hold keeps the keys unique. *)
Lemma insert_absent_unique :
  probe_unique c ->
  (forall i, 0 <= i < 4 -> matches_at c h t i = false) ->
  probe_unique c1.
Proof using Hwf Hk Hc1.
  intros Huniq Habs h' t' i j Hi Hj Hmi Hmj.
  assert (Hold : forall n,
            matches_at c1 h' t' n = true ->
            probe_index (get_cache_index h') n
            <> probe_index (get_cache_index h) k ->
            matches_at c h' t' n = true).
  { intros n Hm Hne. now rewrite (matches_at_elsewhere h' t' n Hne) in Hm. }
  destruct (Z.eq_dec (probe_index (get_cache_index h') i)
              (probe_index (get_cache_index h) k)) as [Ei | Ni];
  destruct (Z.eq_dec (probe_index (get_cache_index h') j)
              (probe_index (get_cache_index h) k)) as [Ej | Nj].
  - destruct (matches_at_written_inv h' t' i Hi Hmi Ei) as (_ & _ & ->).
    destruct (matches_at_written_inv h' t' j Hj Hmj Ej) as (_ & _ & ->).
    reflexivity.
  - destruct (matches_at_written_inv h' t' i Hi Hmi Ei) as (-> & -> & _).
    pose proof (Hold j Hmj Nj) as Hc. rewrite (Habs j Hj) in Hc.
    discriminate.
  - destruct (matches_at_written_inv h' t' j Hj Hmj Ej) as (-> & -> & _).
    pose proof (Hold i Hmi Ni) as Hc. rewrite (Habs i Hi) in Hc.
    discriminate.
  - exact (Huniq h' t' i j Hi Hj (Hold i Hmi Ni) (Hold j Hmj Nj)).
Qed.

End InsertStep.

(** C1, amended.  For an enabled cache, an insert followed at once by a
    lookup of the same hash and tree always hits (returns 1), and the
    index it stores in the out-parameter is the inserted one whenever no
    live entry for the key was in the four slots of the window before the
    insert, as is the case when the insert follows a miss. *)
Theorem picodt_cache_insert_then_lookup (c : picodt_cache_t)
  (h t p out : Z) :
  cache_wf c -> enabled c <> 0 ->
  exists c1,
    picodt_cache_insert (Some c) h t p = Some c1
    /\ (exists c2 v,
          picodt_cache_lookup (Some c1) h t (Some out) = (1, Some c2, Some v))
    /\ (matching_slots c h t = [] ->
        exists c2,
          picodt_cache_lookup (Some c1) h t (Some out) = (1, Some c2, Some p)).
Proof.
  intros Hwf Hen.
  destruct (picodt_cache_insert_slot c h t p Hen) as (k & c1 & Hk & Hins & Hen1 & Hc1).
  exists c1. split; [exact Hins |].
  assert (Hen1' : enabled c1 <> 0) by congruence.
  pose proof (matches_at_written c c1 h t p (clock c) k Hwf Hc1) as Hmk.
  rewrite picodt_cache_lookup_first_match by exact Hen1'.
  destruct (first_match c1 h t) as [i |] eqn:Hfm.
  2: { rewrite (first_match_none c1 h t k Hfm Hk) in Hmk. discriminate. }
  split; [eauto |].
  intros Hnil. eexists. f_equal. f_equal.
  apply first_match_some in Hfm as [Hi Hmi].
  destruct (Z.eq_dec (probe_index (get_cache_index h) i)
              (probe_index (get_cache_index h) k)) as [Heq | Hne].
  - rewrite Heq.
    rewrite (entry_at_insert_eq c c1 _ _ Hwf (probe_index_range _ _) Hc1).
    reflexivity.
  - rewrite (matches_at_elsewhere c c1 h t p (clock c) k Hc1 h t i Hne) in Hmi.
    rewrite (matching_slots_nil c h t Hnil i Hi) in Hmi. discriminate.
Qed.

Lemma fresh_cache_wf : cache_wf fresh_cache.
Proof. reflexivity. Qed.

Lemma picodt_cache_insert_then_lookup_witness :
  exists c1,
    picodt_cache_insert (Some fresh_cache) 7 3 42 = Some c1
    /\ exists c2,
         picodt_cache_lookup (Some c1) 7 3 (Some 0) = (1, Some c2, Some 42).
Proof.
  assert (Hen : enabled fresh_cache <> 0)
    by (change (enabled fresh_cache) with 1; lia).
  destruct (picodt_cache_insert_then_lookup fresh_cache 7 3 42 0
              fresh_cache_wf Hen) as (c1 & Hins & _ & Hfound).
  exists c1. split; [exact Hins |].
  apply Hfound. reflexivity.
Defined.

Lemma fresh_cache_reachable : reachable fresh_cache.
Proof. apply (reach_init zero_block); reflexivity. Qed.

Lemma cache_one_insert_reachable : reachable cache_one_insert.
Proof.
  apply (reach_insert fresh_cache 0 0 1); [apply fresh_cache_reachable |].
  reflexivity.
Qed.

Lemma cache_two_inserts_reachable : reachable cache_two_inserts.
Proof.
  apply (reach_insert cache_one_insert 0 0 2);
    [apply cache_one_insert_reachable |].
  reflexivity.
Qed.

(** C1, as stated, fails: in the cache that already holds the key (0, 0)
    with index 1 in its primary slot, inserting the key with index 2
    writes the next slot, and the lookup that follows returns 1 with the
    old index 1. *)
Lemma stale_index_after_second_insert :
  reachable cache_one_insert
  /\ cache_wf cache_one_insert
  /\ enabled cache_one_insert = 1
  /\ (exists c2, picodt_cache_lookup (Some cache_two_inserts) 0 0 (Some 0)
                 = (1, Some c2, Some 1))
  /\ ~ insert_then_lookup_returns cache_one_insert 0 0 2 0.
Proof.
  split; [apply cache_one_insert_reachable |].
  split; [reflexivity |]. split; [reflexivity |].
  split; [eexists; vm_compute; reflexivity |].
  intros (c1 & c2 & Hins & Hlk).
  assert (Hc1 : c1 = cache_two_inserts).
  { change (picodt_cache_insert (Some cache_one_insert) 0 0 2)
      with (Some cache_two_inserts) in Hins. congruence. }
  subst c1. vm_compute in Hlk. discriminate Hlk.
Qed.

(* ===================================================================== *)
(** * Properties: one live entry per key *)
(* ===================================================================== *)

Lemma probe_unique_length c h t :
  probe_unique c -> (length (matching_slots c h t) <= 1)%nat.
Proof.
  intros H. specialize (H h t). unfold matching_slots, matches_at in *.
  rewrite probe_window_eq. cbn [List.filter].
  destruct (entry_matches (entry_at c (probe_index (get_cache_index h) 0)) h t)
    eqn:E0;
  destruct (entry_matches (entry_at c (probe_index (get_cache_index h) 1)) h t)
    eqn:E1;
  destruct (entry_matches (entry_at c (probe_index (get_cache_index h) 2)) h t)
    eqn:E2;
  destruct (entry_matches (entry_at c (probe_index (get_cache_index h) 3)) h t)
    eqn:E3;
  cbn [length]; try lia; exfalso;
  first [ specialize (H 0 1 ltac:(lia) ltac:(lia) E0 E1); lia
        | specialize (H 0 2 ltac:(lia) ltac:(lia) E0 E2); lia
        | specialize (H 0 3 ltac:(lia) ltac:(lia) E0 E3); lia
        | specialize (H 1 2 ltac:(lia) ltac:(lia) E1 E2); lia
        | specialize (H 1 3 ltac:(lia) ltac:(lia) E1 E3); lia
        | specialize (H 2 3 ltac:(lia) ltac:(lia) E2 E3); lia ].
Qed.

Lemma reset_entries_invalid (l : list picodt_cache_entry_t) st en clk h t i :
  matches_at (mk_cache (reset_entry <$> l) st en clk) h t i = false.
Proof.
  unfold matches_at, entry_at. cbn [entries].
  apply entry_matches_invalid, entry_at_reset.
Qed.

Lemma reset_entries_unique (l : list picodt_cache_entry_t) st en clk :
  probe_unique (mk_cache (reset_entry <$> l) st en clk).
Proof.
  intros h t i j _ _ Hi _. rewrite reset_entries_invalid in Hi. discriminate.
Qed.

Lemma reset_entries_wf (l : list picodt_cache_entry_t) st en clk :
  length l = Z.to_nat PICO_DT_CACHE_SIZE ->
  cache_wf (mk_cache (reset_entry <$> l) st en clk).
Proof. intros H. unfold cache_wf. cbn [entries]. now rewrite length_fmap. Qed.

Lemma lookup_keeps_invariant c h t out r c' o :
  picodt_cache_lookup (Some c) h t (Some out) = (r, Some c', o) ->
  cache_wf c /\ probe_unique c -> cache_wf c' /\ probe_unique c'.
Proof.
  intros Hlk [Hwf Huniq].
  destruct (picodt_cache_lookup_keeps_keys c h t out r c' o Hlk)
    as (Hlen & _ & Hkeys).
  split.
  - unfold cache_wf in *. congruence.
  - intros h' t' i j Hi Hj Hmi Hmj. unfold matches_at in *.
    rewrite Hkeys in Hmi, Hmj. exact (Huniq h' t' i j Hi Hj Hmi Hmj).
Qed.

Lemma initialize_invariant raw c :
  cache_wf raw ->
  picodt_cache_initialize (Some raw) = (PICO_OK, Some c) ->
  cache_wf c /\ probe_unique c.
Proof.
  intros Hwf [= <-]. split.
  - now apply reset_entries_wf.
  - apply reset_entries_unique.
Qed.

Lemma clear_invariant c c' :
  cache_wf c -> picodt_cache_clear (Some c) = Some c' ->
  cache_wf c' /\ probe_unique c'.
Proof.
  intros Hwf [= <-]. split.
  - now apply reset_entries_wf.
  - apply reset_entries_unique.
Qed.

Lemma miss_insert_invariant c h t out c1 o p c2 :
  picodt_cache_lookup (Some c) h t (Some out) = (0, Some c1, o) ->
  picodt_cache_insert (Some c1) h t p = Some c2 ->
  cache_wf c /\ probe_unique c -> cache_wf c2 /\ probe_unique c2.
Proof.
  intros Hlk Hins Hinv.
  pose proof (lookup_keeps_invariant _ _ _ _ _ _ _ Hlk Hinv) as [Hwf1 Huniq1].
  destruct (picodt_cache_lookup_keeps_keys c h t out 0 c1 o Hlk)
    as (_ & Hen & Hkeys).
  destruct (Z.eq_dec (enabled c1) 0) as [Hdis | Hen1].
  - unfold picodt_cache_insert, picodt_cache_is_enabled in Hins.
    rewrite Hdis in Hins. cbn in Hins. injection Hins as <-. auto.
  - assert (Habs : forall i, 0 <= i < 4 -> matches_at c1 h t i = false).
    { intros i Hi. unfold matches_at. rewrite Hkeys.
      apply (picodt_cache_lookup_miss c h t out c1 o); [congruence | exact Hlk | exact Hi]. }
    destruct (picodt_cache_insert_slot c1 h t p Hen1)
      as (k & c2' & Hk & Hins' & _ & Hc2).
    assert (c2' = c2) by congruence. subst c2'.
    split.
    + unfold cache_wf in *. rewrite Hc2, length_insert. exact Hwf1.
    + exact (insert_absent_unique c1 c2 h t p (clock c1) k Hwf1 Hk Hc2 Huniq1 Habs).
Qed.

Lemma reachable_on_miss_invariant c :
  reachable_on_miss c -> cache_wf c /\ probe_unique c.
Proof.
  induction 1 as [raw c Hraw Hinit
                 | c h t out r c' o _ IH Hlk
                 | c h t out c1 o p c2 _ IH Hlk Hins
                 | c c' _ IH Hclr].
  - exact (initialize_invariant raw c Hraw Hinit).
  - exact (lookup_keeps_invariant _ _ _ _ _ _ _ Hlk IH).
  - exact (miss_insert_invariant _ _ _ _ _ _ _ _ Hlk Hins IH).
  - exact (clear_invariant c c' (proj1 IH) Hclr).
Qed.

(** C5, amended.  In every cache state reached from initialization by
    lookups, clears, and inserts that each follow a lookup of the same
    key that has just missed, the four slots probed for a hash hold at
    most one live entry for any (hash, tree) pair. *)
Theorem picodt_cache_one_entry_per_key (c : picodt_cache_t) :
  reachable_on_miss c ->
  forall h t, (length (matching_slots c h t) <= 1)%nat.
Proof.
  intros Hr h t. apply probe_unique_length.
  exact (proj2 (reachable_on_miss_invariant c Hr)).
Qed.

Lemma cache_miss_then_insert_on_miss : reachable_on_miss cache_miss_then_insert.
Proof.
  apply (rom_miss_insert fresh_cache 0 0 0 (after_lookup 0 0 fresh_cache)
           (Some 0) 1).
  - apply (rom_init zero_block); reflexivity.
  - reflexivity.
  - reflexivity.
Qed.

Lemma picodt_cache_one_entry_per_key_witness :
  (length (matching_slots cache_miss_then_insert 0 0) <= 1)%nat.
Proof.
  exact (picodt_cache_one_entry_per_key cache_miss_then_insert
           cache_miss_then_insert_on_miss 0 0).
Defined.

(** C5, as stated, fails: two inserts of the key (0, 0) in a row, with
    no lookup between them, leave two live entries for it in the window
    of hash 0. *)
Lemma picodt_cache_duplicate_entries :
  ~ (forall c, reachable c ->
       forall h t, (length (matching_slots c h t) <= 1)%nat).
Proof.
  intros H. specialize (H cache_two_inserts cache_two_inserts_reachable 0 0).
  vm_compute in H. lia.
Qed.

(* ===================================================================== *)
(** * Properties: the hit rate *)
(* ===================================================================== *)

Lemma picodt_cache_hit_rate_after_clear cache :
  picodt_cache_hit_rate (picodt_cache_clear cache) = 0.
Proof. destruct cache; reflexivity. Qed.

Lemma picodt_cache_hit_rate_after_initialize mem :
  picodt_cache_hit_rate (snd (picodt_cache_initialize mem)) = 0.
Proof. destruct mem; reflexivity. Qed.

(** While neither [hits + misses] nor [hits * 100] leaves 32 bits, the
    hit rate is the integer percentage, between 0 and 100. *)
Lemma picodt_cache_hit_rate_exact c :
  0 <= hits (stats c) -> 0 <= misses (stats c) ->
  hits (stats c) + misses (stats c) < 2 ^ 32 ->
  hits (stats c) * 100 < 2 ^ 32 ->
  picodt_cache_hit_rate (Some c)
  = (if hits (stats c) + misses (stats c) =? 0 then 0
     else hits (stats c) * 100 / (hits (stats c) + misses (stats c)))
  /\ 0 <= picodt_cache_hit_rate (Some c) <= 100.
Proof.
  intros Hh Hm Htot Hov. unfold picodt_cache_hit_rate.
  change (2 ^ 32) with 4294967296 in *.
  rewrite (to_uint32_id (hits (stats c) + misses (stats c)))
    by (unfold is_uint32; lia).
  rewrite (to_uint32_id (hits (stats c) * 100)) by (unfold is_uint32; lia).
  destruct (Z.eqb_spec (hits (stats c) + misses (stats c)) 0) as [E | E];
    [split; [reflexivity | lia] |].
  assert (Hq : 0 <= hits (stats c) * 100 / (hits (stats c) + misses (stats c))
               <= 100).
  { split.
    - apply Z.div_pos; lia.
    - apply Z.div_le_upper_bound; lia. }
  rewrite to_uint8_id by (unfold is_uint8; lia).
  split; [reflexivity | exact Hq].
Qed.

Lemma after_lookup_hit c h t :
  enabled c <> 0 -> matches_at c h t 0 = true ->
  picodt_cache_lookup (Some c) h t (Some 0)
  = (1, Some (after_lookup h t c),
     Some (pdf_index (entry_at c (probe_index (get_cache_index h) 0))))
  /\ after_lookup h t c
     = record_hit c (probe_index (get_cache_index h) 0) false.
Proof.
  intros Hen Hm. unfold after_lookup.
  rewrite picodt_cache_lookup_first_match by exact Hen.
  unfold first_match. cbn [List.find]. rewrite Hm. split; reflexivity.
Qed.

(** [n] hits in a row: the hit counter advances by [n] modulo [2^32], the
    miss counter stands still, and the key stays in its primary slot. *)
Lemma after_lookups_hits h t c :
  reachable c -> enabled c <> 0 -> matches_at c h t 0 = true ->
  is_uint32 (hits (stats c)) ->
  forall n,
    reachable (after_lookups n h t c)
    /\ enabled (after_lookups n h t c) = enabled c
    /\ matches_at (after_lookups n h t c) h t 0 = true
    /\ hits (stats (after_lookups n h t c))
       = (hits (stats c) + Z.of_N n) mod 2 ^ 32
    /\ misses (stats (after_lookups n h t c)) = misses (stats c).
Proof.
  intros Hr Hen Hm Hh n. induction n as [| n IH] using N.peano_ind.
  - unfold after_lookups. cbn [N.iter].
    repeat split; try assumption.
    unfold is_uint32 in Hh. change (2 ^ 32) with 4294967296.
    cbn [Z.of_N]. zdivmod.
  - destruct IH as (IHr & IHen & IHm & IHh & IHmiss).
    unfold after_lookups in *. rewrite N.iter_succ.
    set (c' := N.iter n (after_lookup h t) c) in *.
    assert (Hen' : enabled c' <> 0) by congruence.
    destruct (after_lookup_hit c' h t Hen' IHm) as [Hlk Heq].
    split; [exact (reach_lookup c' h t 0 _ _ _ IHr Hlk) |].
    rewrite Heq. split; [exact IHen |]. split.
    { unfold matches_at. rewrite entry_matches_record_hit. exact IHm. }
    split; [| exact IHmiss].
    unfold record_hit. cbn [stats hits]. rewrite IHh, N2Z.inj_succ.
    unfold_casts. zdivmod.
Qed.

Lemma cache_two_misses_reachable : reachable cache_two_misses.
Proof.
  apply (reach_insert (after_lookup 0 0 (after_lookup 0 0 fresh_cache)) 0 0 1);
    [| reflexivity].
  apply (reach_lookup (after_lookup 0 0 fresh_cache) 0 0 0 0 _ (Some 0));
    [| reflexivity].
  apply (reach_lookup fresh_cache 0 0 0 0 _ (Some 0)); [| reflexivity].
  apply fresh_cache_reachable.
Qed.

(** C6, at the failing inputs.  After one insert and 42949673 lookups
    that all hit, the counters are [hits = 42949673] and [misses = 0],
    the product [hits * 100] has left 32 bits, and the hit rate returned
    is 0 where the quotient [hits * 100 / (hits + misses)] is 100.  After
    two misses, one insert and [2^32 - 1] hits the sum [hits + misses]
    has wrapped to 1 and the hit rate returned is 156. *)
Theorem picodt_cache_hit_rate_overflow :
  (let c := after_lookups 42949673 0 0 cache_one_insert in
   reachable c
   /\ hits (stats c) = 42949673 /\ misses (stats c) = 0
   /\ picodt_cache_hit_rate (Some c) = 0
   /\ hits (stats c) * 100 / (hits (stats c) + misses (stats c)) = 100)
  /\ (let c := after_lookups 4294967295 0 0 cache_two_misses in
      reachable c
      /\ hits (stats c) = 4294967295 /\ misses (stats c) = 2
      /\ picodt_cache_hit_rate (Some c) = 156).
Proof.
  split.
  - assert (Hen : enabled cache_one_insert <> 0)
      by (change (enabled cache_one_insert) with 1; lia).
    assert (Hm : matches_at cache_one_insert 0 0 0 = true) by reflexivity.
    assert (Hh : is_uint32 (hits (stats cache_one_insert)))
      by (change (hits (stats cache_one_insert)) with 0; unfold is_uint32; lia).
    destruct (after_lookups_hits 0 0 cache_one_insert
                cache_one_insert_reachable Hen Hm Hh 42949673)
      as (Hr & _ & _ & Hhits & Hmiss).
    set (c := after_lookups 42949673 0 0 cache_one_insert) in *.
    change (hits (stats cache_one_insert)) with 0 in Hhits.
    change (misses (stats cache_one_insert)) with 0 in Hmiss.
    change ((0 + Z.of_N 42949673) mod 2 ^ 32) with 42949673 in Hhits.
    cbv zeta. unfold picodt_cache_hit_rate. rewrite Hhits, Hmiss.
    repeat split; try assumption; reflexivity.
  - assert (Hen : enabled cache_two_misses <> 0)
      by (change (enabled cache_two_misses) with 1; lia).
    assert (Hm : matches_at cache_two_misses 0 0 0 = true) by reflexivity.
    assert (Hh : is_uint32 (hits (stats cache_two_misses)))
      by (change (hits (stats cache_two_misses)) with 0; unfold is_uint32; lia).
    destruct (after_lookups_hits 0 0 cache_two_misses
                cache_two_misses_reachable Hen Hm Hh 4294967295)
      as (Hr & _ & _ & Hhits & Hmiss).
    set (c := after_lookups 4294967295 0 0 cache_two_misses) in *.
    change (hits (stats cache_two_misses)) with 0 in Hhits.
    change (misses (stats cache_two_misses)) with 2 in Hmiss.
    change ((0 + Z.of_N 4294967295) mod 2 ^ 32) with 4294967295 in Hhits.
    cbv zeta. unfold picodt_cache_hit_rate. rewrite Hhits, Hmiss.
    repeat split; try assumption; reflexivity.
Qed.

(* ===================================================================== *)
(** * Properties: comparisons of single precision numbers *)
(* ===================================================================== *)

Lemma SFcompare_antisym x y :
  SFcompare y x = option_map CompOpp (SFcompare x y).
Proof.
  destruct x as [sx | sx | | sx mx ex], y as [sy | sy | | sy my ey];
    cbn [SFcompare option_map];
    try (destruct sx); try (destruct sy); try reflexivity;
    rewrite (Z.compare_antisym ex ey);
    destruct (ex ?= ey); cbn [CompOpp]; try reflexivity;
    pose proof (Pos.compare_cont_antisym mx my Eq) as Hm;
    cbn [CompOpp] in Hm; rewrite <- Hm;
    try reflexivity;
    now rewrite CompOpp_involutive.
Qed.

Lemma SFcompare_not_nan x y :
  single_is_nan x = false -> single_is_nan y = false ->
  SFcompare x y <> None.
Proof.
  destruct x as [sx | sx | | sx mx ex], y as [sy | sy | | sy my ey];
    cbn; intros; congruence.
Qed.

(** On numbers, [x <= y] is the negation of [y < x]. *)
Lemma SFleb_negb_SFltb x y :
  single_is_nan x = false -> single_is_nan y = false ->
  SFleb x y = negb (SFltb y x).
Proof.
  intros Hx Hy. unfold SFleb, SFltb. rewrite (SFcompare_antisym x y).
  pose proof (SFcompare_not_nan x y Hx Hy) as Hn.
  destruct (SFcompare x y) as [[] |]; [reflexivity .. | contradiction].
Qed.

Lemma SFleb_true_SFltb_false x y : SFleb x y = true -> SFltb y x = false.
Proof.
  unfold SFleb, SFltb. rewrite (SFcompare_antisym x y).
  destruct (SFcompare x y) as [[] |]; cbn; congruence.
Qed.

Lemma SFleb_not_nan x y :
  SFleb x y = true -> single_is_nan x = false /\ single_is_nan y = false.
Proof.
  destruct x as [sx | sx | | sx mx ex], y as [sy | sy | | sy my ey];
    cbn; intros; split; congruence.
Qed.

Lemma single_in_range_nan lo hi : single_in_range lo hi S754_nan = false.
Proof. unfold single_in_range. destruct lo; reflexivity. Qed.

(** The test [x < lo || x > hi] of the C code, on a number. *)
Lemma out_of_range_test lo hi x :
  single_is_nan lo = false -> single_is_nan hi = false ->
  single_is_nan x = false ->
  single_lt x lo || single_gt x hi = negb (single_in_range lo hi x).
Proof.
  intros Hlo Hhi Hx. unfold single_lt, single_gt, single_in_range.
  rewrite (SFleb_negb_SFltb lo x Hlo Hx), (SFleb_negb_SFltb x hi Hx Hhi).
  destruct (SFltb x lo), (SFltb hi x); reflexivity.
Qed.

(** The literals of the header are valid binary32 numbers with the
    values they are written with; 0.80f, 1.10f and the like are the
    nearest binary32 numbers to their decimals. *)
Example header_literals :
  single_exactly PICO_PITCH_SCALE_MIN 1 2
  /\ single_exactly PICO_PITCH_SCALE_MAX 2 1
  /\ single_exactly PICO_SPEED_SCALE_MAX 3 1
  /\ single_exactly PICO_FORMANT_SHIFT_MIN (-500) 1
  /\ single_exactly PICO_FORMANT_SHIFT_MAX 500 1
  /\ single_exactly PICO_FEMALE_PITCH_SCALE 5 4
  /\ single_exactly PICO_FEMALE_FORMANT_SHIFT 150 1
  /\ PICO_MALE_PITCH_SCALE = S754_finite false 13421773 (-24)
  /\ PICO_CHILD_SPEED_SCALE = S754_finite false 9227469 (-23)
  /\ forallb single_valid
       [PICO_PITCH_SCALE_MIN; PICO_PITCH_SCALE_MAX; PICO_SPEED_SCALE_MAX;
        PICO_FORMANT_SHIFT_MIN; PICO_FORMANT_SHIFT_MAX;
        PICO_MALE_PITCH_SCALE; PICO_MALE_FORMANT_SHIFT;
        PICO_FEMALE_PITCH_SCALE; PICO_FEMALE_FORMANT_SHIFT;
        PICO_CHILD_PITCH_SCALE; PICO_CHILD_SPEED_SCALE;
        PICO_ROBOT_PITCH_SCALE; PICO_ROBOT_EMPHASIS_SCALE;
        PICO_SLOW_SPEED_SCALE; PICO_SLOW_PAUSE_SCALE;
        PICO_FAST_SPEED_SCALE; PICO_FAST_PAUSE_SCALE] = true.
Proof. repeat split; reflexivity. Qed.

(* ===================================================================== *)
(** * Properties: pico_clamp_float *)
(* ===================================================================== *)

Lemma pico_clamp_float_nan lo hi : pico_clamp_float S754_nan lo hi = S754_nan.
Proof. unfold pico_clamp_float, single_lt, single_gt. destruct hi; reflexivity. Qed.

Lemma pico_clamp_float_in_range v lo hi :
  single_is_nan v = false ->
  single_in_range lo hi lo = true -> single_in_range lo hi hi = true ->
  single_in_range lo hi (pico_clamp_float v lo hi) = true.
Proof.
  intros Hv Hlo Hhi.
  assert (Hnl : single_is_nan lo = false).
  { unfold single_in_range in Hlo. apply andb_true_iff in Hlo as [H _].
    now apply SFleb_not_nan in H. }
  assert (Hnh : single_is_nan hi = false).
  { unfold single_in_range in Hhi. apply andb_true_iff in Hhi as [_ H].
    now apply SFleb_not_nan in H. }
  unfold pico_clamp_float, single_lt, single_gt.
  destruct (SFltb v lo) eqn:E1; [exact Hlo |].
  destruct (SFltb hi v) eqn:E2; [exact Hhi |].
  unfold single_in_range.
  rewrite (SFleb_negb_SFltb lo v Hnl Hv), (SFleb_negb_SFltb v hi Hv Hnh).
  now rewrite E1, E2.
Qed.

Lemma pico_clamp_float_id v lo hi :
  single_in_range lo hi v = true -> pico_clamp_float v lo hi = v.
Proof.
  unfold single_in_range. intros H. apply andb_true_iff in H as [H1 H2].
  unfold pico_clamp_float, single_lt, single_gt.
  now rewrite (SFleb_true_SFltb_false lo v H1), (SFleb_true_SFltb_false v hi H2).
Qed.

Lemma clamp_boost_eq q :
  (let q1 := if q <? 0 then 0 else q in if q1 >? 100 then 100 else q1)
  = clamp_boost q.
Proof.
  unfold clamp_boost. cbv zeta.
  destruct (Z.ltb_spec q 0).
  - destruct (Z.gtb_spec 0 100); lia.
  - destruct (Z.gtb_spec q 100); lia.
Qed.

(* ===================================================================== *)
(** * Properties: voice parameters *)
(* ===================================================================== *)

(** On parameter sets whose three scales are numbers, validation accepts
    exactly the sets within the documented bounds. *)
Lemma pico_validate_voice_params_spec p :
  single_is_nan (pitch_scale p) = false ->
  single_is_nan (speed_scale p) = false ->
  single_is_nan (formant_shift p) = false ->
  pico_validate_voice_params (Some p)
  = if voice_params_in_bounds p then PICO_OK else PICO_ERR_OTHER.
Proof.
  intros Hp Hs Hf. unfold pico_validate_voice_params, voice_params_in_bounds.
  rewrite (out_of_range_test PICO_PITCH_SCALE_MIN PICO_PITCH_SCALE_MAX
             (pitch_scale p) eq_refl eq_refl Hp).
  rewrite (out_of_range_test PICO_SPEED_SCALE_MIN PICO_SPEED_SCALE_MAX
             (speed_scale p) eq_refl eq_refl Hs).
  rewrite (out_of_range_test PICO_FORMANT_SHIFT_MIN PICO_FORMANT_SHIFT_MAX
             (formant_shift p) eq_refl eq_refl Hf).
  eval_lits. unfold_limits.
  destruct (single_in_range _ _ (pitch_scale p)); [| reflexivity].
  destruct (single_in_range _ _ (speed_scale p)); [| reflexivity].
  destruct (single_in_range _ _ (formant_shift p)); [| reflexivity].
  cbn [negb andb].
  destruct (Z.ltb_spec (quality_mode p) 0), (Z.gtb_spec (quality_mode p) 2),
    (Z.leb_spec 0 (quality_mode p)), (Z.leb_spec (quality_mode p) 2);
    cbn [orb andb]; try reflexivity; lia.
Qed.

(** A call of the setter applies the whole set or nothing. *)
Lemma pico_set_voice_params_atomic params g :
  (fst (pico_set_voice_params params g) = PICO_OK
   /\ exists p, params = Some p
                /\ snd (pico_set_voice_params params g) = with_voice g p)
  \/ (fst (pico_set_voice_params params g) <> PICO_OK
      /\ snd (pico_set_voice_params params g) = g).
Proof.
  unfold pico_set_voice_params. destruct params as [p |].
  - destruct (pico_validate_voice_params (Some p)) eqn:E; cbn;
      [left; eauto | right; split; [discriminate | reflexivity] ..].
  - right. split; [discriminate | reflexivity].
Qed.

(** On numbers, the setter rejects every set with a field out of its
    bound and leaves the active set alone; it replaces the active set by
    every set within the bounds. *)
Lemma pico_set_voice_params_spec p g :
  single_is_nan (pitch_scale p) = false ->
  single_is_nan (speed_scale p) = false ->
  single_is_nan (formant_shift p) = false ->
  pico_set_voice_params (Some p) g
  = if voice_params_in_bounds p then (PICO_OK, with_voice g p)
    else (PICO_ERR_OTHER, g).
Proof.
  intros Hp Hs Hf. unfold pico_set_voice_params.
  rewrite (pico_validate_voice_params_spec p Hp Hs Hf).
  destruct (voice_params_in_bounds p); reflexivity.
Qed.

(** The example of the specification: a pitch scale of 3.0 is rejected
    and nothing changes. *)
Example pico_set_voice_params_rejects_pitch_3 g :
  pico_set_voice_params
    (Some (mk_voice (single_lit 3 1) (single_lit 1 1) (single_lit 0 1) 1)) g
  = (PICO_ERR_OTHER, g).
Proof. reflexivity. Qed.

(** C2, at the failing input.  A parameter set whose pitch scale is NaN
    is outside the documented bound [0.5, 2.0], yet both comparisons of
    the validation answer false on it: validation returns [PICO_OK] and
    the setter makes the set, NaN included, the active one. *)
Theorem pico_set_voice_params_accepts_nan (g : quality_globals) :
  let p := mk_voice S754_nan (single_lit 1 1) (single_lit 0 1)
             PICO_QUALITY_MODE_BALANCED in
  voice_params_in_bounds p = false
  /\ pico_validate_voice_params (Some p) = PICO_OK
  /\ pico_set_voice_params (Some p) g = (PICO_OK, with_voice g p)
  /\ single_is_nan
       (pitch_scale
          (voice_params (g_quality_ctx (snd (pico_set_voice_params (Some p) g)))))
     = true.
Proof. cbv zeta. repeat split; reflexivity. Qed.

(* ===================================================================== *)
(** * Properties: prosody parameters *)
(* ===================================================================== *)

(** What the prosody setter does on every non-null argument: it returns
    [PICO_OK], writes the same struct into the caller's memory and into
    the context, and that struct holds the clamp of each field. *)
Lemma pico_set_prosody_params_spec p g :
  let p' := mk_prosody
              (pico_clamp_float (emphasis_scale p) (single_lit 5 10)
                 (single_lit 20 10))
              (pico_clamp_float (pause_scale p) (single_lit 5 10)
                 (single_lit 20 10))
              (clamp_boost (question_boost p)) in
  pico_set_prosody_params (Some p) g = (PICO_OK, Some p', with_prosody g p').
Proof.
  cbv zeta. unfold pico_set_prosody_params.
  pose proof (clamp_boost_eq (question_boost p)) as Hq. cbv zeta in Hq.
  rewrite Hq. reflexivity.
Qed.

(** On numbers the clamped struct is within the documented bounds, and a
    struct already within the bounds is not changed. *)
Lemma pico_set_prosody_params_clamps p g :
  single_is_nan (emphasis_scale p) = false ->
  single_is_nan (pause_scale p) = false ->
  exists p',
    pico_set_prosody_params (Some p) g = (PICO_OK, Some p', with_prosody g p')
    /\ prosody_params_in_bounds p' = true
    /\ (prosody_params_in_bounds p = true -> p' = p).
Proof.
  intros He Hs. eexists. split; [apply pico_set_prosody_params_spec |].
  split.
  - unfold prosody_params_in_bounds. cbn [emphasis_scale pause_scale question_boost].
    rewrite (pico_clamp_float_in_range (emphasis_scale p) (single_lit 5 10)
               (single_lit 20 10) He eq_refl eq_refl).
    rewrite (pico_clamp_float_in_range (pause_scale p) (single_lit 5 10)
               (single_lit 20 10) Hs eq_refl eq_refl).
    unfold clamp_boost. cbn [andb].
    apply andb_true_iff. split; [apply Z.leb_le | apply Z.leb_le]; lia.
  - unfold prosody_params_in_bounds. intros H.
    apply andb_true_iff in H as [H Hq2]. apply andb_true_iff in H as [H Hq1].
    apply andb_true_iff in H as [H1 H2].
    rewrite (pico_clamp_float_id _ _ _ H1), (pico_clamp_float_id _ _ _ H2).
    apply Z.leb_le in Hq1, Hq2. unfold clamp_boost.
    replace (Z.max 0 (Z.min 100 (question_boost p))) with (question_boost p)
      by lia.
    destruct p; reflexivity.
Qed.

(** C8, at the failing input.  On an emphasis scale that is NaN both
    comparisons of [pico_clamp_float] answer false and the NaN is
    returned: the call succeeds and the active emphasis scale is a NaN,
    which is not within [0.5, 2.0]. *)
Theorem pico_set_prosody_params_keeps_nan (g : quality_globals) :
  let p := mk_prosody S754_nan (single_lit 1 1) 50 in
  let '(status, _, g') := pico_set_prosody_params (Some p) g in
  status = PICO_OK
  /\ emphasis_scale (prosody_params (g_quality_ctx g')) = S754_nan
  /\ single_in_range (single_lit 5 10) (single_lit 20 10)
       (emphasis_scale (prosody_params (g_quality_ctx g'))) = false
  /\ prosody_params_in_bounds (prosody_params (g_quality_ctx g')) = false.
Proof. cbv zeta. repeat split; reflexivity. Qed.

(** C10, at the failing input.  The caller's struct is overwritten and
    equals the active set after the call: an emphasis of 9.0 comes back
    as 2.0 and a boost of 120 as 100; but a pause scale that is NaN comes
    back as NaN, so the struct the caller holds is not within the
    bounds. *)
Theorem pico_set_prosody_params_caller_struct_nan (g : quality_globals) :
  let p := mk_prosody (single_lit 9 1) S754_nan 120 in
  let '(status, caller, g') := pico_set_prosody_params (Some p) g in
  status = PICO_OK
  /\ caller = Some (mk_prosody (single_lit 2 1) S754_nan 100)
  /\ caller = Some (prosody_params (g_quality_ctx g'))
  /\ caller <> Some p
  /\ (forall p', caller = Some p' -> prosody_params_in_bounds p' = false).
Proof.
  cbv zeta. repeat split; try reflexivity.
  - discriminate.
  - intros p' [= <-]. reflexivity.
Qed.

(* ===================================================================== *)
(** * Properties: the quality mode of the active set *)
(* ===================================================================== *)

Lemma pico_validate_voice_params_mode p :
  pico_validate_voice_params (Some p) = PICO_OK ->
  0 <= quality_mode p <= 2.
Proof.
  unfold pico_validate_voice_params. unfold_limits.
  destruct (single_lt (pitch_scale p) _ || single_gt (pitch_scale p) _);
    [discriminate |].
  destruct (single_lt (speed_scale p) _ || single_gt (speed_scale p) _);
    [discriminate |].
  destruct (single_lt (formant_shift p) _ || single_gt (formant_shift p) _);
    [discriminate |].
  destruct (Z.ltb_spec (quality_mode p) 0), (Z.gtb_spec (quality_mode p) 2);
    cbn [orb]; try discriminate.
  intros _. lia.
Qed.

Lemma pico_set_voice_params_ok v g :
  pico_validate_voice_params (Some v) = PICO_OK ->
  pico_set_voice_params (Some v) g = (PICO_OK, with_voice g v).
Proof. intros H. unfold pico_set_voice_params. now rewrite H. Qed.

Lemma pico_set_voice_params_mode_valid params g :
  quality_mode_valid g ->
  quality_mode_valid (snd (pico_set_voice_params params g)).
Proof.
  intros Hg. unfold pico_set_voice_params. destruct params as [p |]; [| exact Hg].
  destruct (pico_validate_voice_params (Some p)) eqn:E; cbn; try exact Hg.
  apply (pico_validate_voice_params_mode p E).
Qed.

Lemma pico_set_prosody_params_voice params g :
  voice_params (g_quality_ctx (snd (pico_set_prosody_params params g)))
  = voice_params (g_quality_ctx g).
Proof. destruct params; reflexivity. Qed.

(** A profile call is a call of each setter on some pair of sets. *)
Lemma pico_apply_voice_profile_shape profile g :
  exists v pr,
    pico_apply_voice_profile profile g
    = (PICO_OK,
       snd (pico_set_prosody_params (Some pr)
              (snd (pico_set_voice_params (Some v) g)))).
Proof.
  unfold pico_apply_voice_profile.
  repeat match goal with
         | |- context [if ?b then _ else _] =>
             destruct b; [cbv beta iota zeta; eauto |]
         end.
  cbv beta iota zeta. eauto.
Qed.

Lemma run_quality_call_mode_valid k g :
  quality_mode_valid g -> quality_mode_valid (run_quality_call k g).
Proof.
  intros Hg. destruct k; cbn [run_quality_call].
  - unfold pico_quality_init.
    destruct (negb (initialized (g_quality_ctx g) =? 0)); [exact Hg |].
    unfold quality_mode_valid. cbn. unfold_limits. lia.
  - unfold pico_quality_cleanup.
    destruct (initialized (g_quality_ctx g) =? 0); exact Hg.
  - unfold pico_set_quality_mode. unfold_limits.
    destruct (Z.ltb_spec mode 0), (Z.gtb_spec mode 2); cbn [orb snd];
      try exact Hg.
    unfold quality_mode_valid. cbn. lia.
  - now apply pico_set_voice_params_mode_valid.
  - unfold quality_mode_valid. cbn. unfold_limits. lia.
  - unfold quality_mode_valid. now rewrite pico_set_prosody_params_voice.
  - exact Hg.
  - destruct (pico_apply_voice_profile_shape profile g) as (v & pr & ->).
    cbn [snd]. unfold quality_mode_valid.
    rewrite pico_set_prosody_params_voice.
    now apply pico_set_voice_params_mode_valid.
  - exact Hg.
Qed.

(** Whatever sequence of calls is made, the active quality mode is one
    of the three presets. *)
Lemma run_quality_calls_mode_valid ks :
  quality_mode_valid (run_quality_calls ks).
Proof.
  unfold run_quality_calls.
  assert (H0 : quality_mode_valid static_globals)
    by (unfold quality_mode_valid; cbn; lia).
  revert H0. generalize static_globals.
  induction ks as [| k ks IH]; intros g Hg; [exact Hg |].
  cbn [fold_left]. apply IH. now apply run_quality_call_mode_valid.
Qed.

(* ===================================================================== *)
(** * Properties: voice profiles *)
(* ===================================================================== *)

Lemma documented_defaults g :
  voice_params (g_quality_ctx (snd (pico_reset_voice_params g)))
  = default_voice_params
  /\ prosody_params (g_quality_ctx (snd (pico_reset_prosody_params g)))
     = default_prosody_params
  /\ voice_params (g_quality_ctx (snd (pico_quality_init static_globals)))
     = default_voice_params
  /\ prosody_params (g_quality_ctx (snd (pico_quality_init static_globals)))
     = default_prosody_params.
Proof. repeat split; reflexivity. Qed.

(** C3, amended.  From every state whose quality mode is one of the
    three presets (every state the interface can produce), applying a
    profile returns [PICO_OK] and leaves, as the active sets, the
    overrides of that one profile laid over the default pitch, speed,
    formant shift, emphasis and pause; the quality mode and the question
    boost (clamped into [0, 100]) are carried over from the state before
    the call rather than reset.  For the female profile the pitch scale
    is exactly 1.25 and the formant shift exactly 150, whatever was
    active before. *)
Theorem pico_apply_voice_profile_overlay (g : quality_globals)
  (p : voice_profile) :
  quality_mode_valid g ->
  let r := pico_apply_voice_profile (profile_code p) g in
  fst r = PICO_OK
  /\ voice_params (g_quality_ctx (snd r))
     = overlay_voice p (defaults_keeping_mode g)
  /\ prosody_params (g_quality_ctx (snd r))
     = overlay_prosody p (defaults_keeping_boost g)
  /\ (p = ProfileFemale ->
      single_exactly (pitch_scale (voice_params (g_quality_ctx (snd r)))) 5 4
      /\ single_exactly
           (formant_shift (voice_params (g_quality_ctx (snd r)))) 150 1).
Proof.
  destruct g as [[[ps ss fs qm] [es pause qb] f seed ini] st].
  unfold quality_mode_valid, defaults_keeping_mode, defaults_keeping_boost.
  cbn [g_quality_ctx voice_params prosody_params quality_mode question_boost].
  intros Hqm.
  assert (Hc : qm = 0 \/ qm = 1 \/ qm = 2) by lia.
  destruct Hc as [-> | [-> | ->]]; destruct p; profile_switch;
    cbn [g_quality_ctx voice_params prosody_params quality_mode question_boost
         pitch_scale speed_scale formant_shift emphasis_scale pause_scale];
    rewrite pico_set_prosody_params_spec;
    rewrite pico_set_voice_params_ok by reflexivity;
    cbn [fst snd];
    (split; [reflexivity |]); (split; [reflexivity |]);
    (split; [reflexivity |]);
    intros Hp; try discriminate Hp; split; reflexivity.
Qed.

Lemma pico_apply_voice_profile_overlay_witness :
  pitch_scale
    (voice_params
       (g_quality_ctx
          (snd (pico_apply_voice_profile PICO_VOICE_PROFILE_FEMALE
                  custom_globals))))
  = PICO_FEMALE_PITCH_SCALE
  /\ quality_mode
       (voice_params
          (g_quality_ctx
             (snd (pico_apply_voice_profile PICO_VOICE_PROFILE_FEMALE
                     custom_globals))))
     = PICO_QUALITY_MODE_QUALITY.
Proof.
  assert (Hv : quality_mode_valid custom_globals)
    by (unfold quality_mode_valid; vm_compute; split; discriminate).
  destruct (pico_apply_voice_profile_overlay custom_globals ProfileFemale Hv)
    as (_ & Hvoice & _).
  change (profile_code ProfileFemale) with PICO_VOICE_PROFILE_FEMALE in Hvoice.
  rewrite Hvoice. split; reflexivity.
Defined.

(** C3, as stated, fails: with the quality preset selected and a custom
    question boost of 80 active, applying the female profile leaves
    quality mode 2 and question boost 80, where the documented defaults
    are 1 and 50. *)
Lemma pico_apply_voice_profile_not_on_defaults :
  quality_mode
    (voice_params
       (g_quality_ctx (snd (pico_apply_voice_profile 2 custom_globals)))) = 2
  /\ question_boost
       (prosody_params
          (g_quality_ctx (snd (pico_apply_voice_profile 2 custom_globals)))) = 80
  /\ quality_mode default_voice_params = 1
  /\ question_boost default_prosody_params = 50
  /\ ~ profile_on_defaults ProfileFemale custom_globals.
Proof.
  repeat split; try reflexivity.
  intros [Hv _]. vm_compute in Hv. discriminate Hv.
Qed.

(* ===================================================================== *)
(** * Properties: values outside the enumerations *)
(* ===================================================================== *)

(** C9, amended.  A quality mode outside 0..2 is answered with the
    generic error [PICO_ERR_OTHER] and changes nothing; a profile value
    outside the enumeration takes the [default:] label of the switch: it
    is applied as the default profile and the call returns [PICO_OK]. *)
Theorem pico_values_outside_enumerations (g : quality_globals)
  (mode profile : Z) :
  mode < 0 \/ 2 < mode ->
  profile < 0 \/ 6 < profile ->
  pico_set_quality_mode mode g = (PICO_ERR_OTHER, g)
  /\ pico_apply_voice_profile profile g
     = pico_apply_voice_profile PICO_VOICE_PROFILE_DEFAULT g
  /\ fst (pico_apply_voice_profile profile g) = PICO_OK.
Proof.
  intros Hm Hp. split; [| split].
  - unfold pico_set_quality_mode. unfold_limits.
    destruct (Z.ltb_spec mode 0), (Z.gtb_spec mode 2); cbn [orb];
      try reflexivity; lia.
  - unfold pico_apply_voice_profile.
    unfold PICO_VOICE_PROFILE_DEFAULT, PICO_VOICE_PROFILE_MALE,
      PICO_VOICE_PROFILE_FEMALE, PICO_VOICE_PROFILE_CHILD,
      PICO_VOICE_PROFILE_ROBOT, PICO_VOICE_PROFILE_SLOW,
      PICO_VOICE_PROFILE_FAST.
    rewrite (proj2 (Z.eqb_neq profile 1)) by lia.
    rewrite (proj2 (Z.eqb_neq profile 2)) by lia.
    rewrite (proj2 (Z.eqb_neq profile 3)) by lia.
    rewrite (proj2 (Z.eqb_neq profile 4)) by lia.
    rewrite (proj2 (Z.eqb_neq profile 5)) by lia.
    rewrite (proj2 (Z.eqb_neq profile 6)) by lia.
    reflexivity.
  - destruct (pico_apply_voice_profile_shape profile g) as (v & pr & ->).
    reflexivity.
Qed.

Lemma pico_values_outside_enumerations_witness :
  pico_set_quality_mode 3 static_globals = (PICO_ERR_OTHER, static_globals)
  /\ fst (pico_apply_voice_profile 7 static_globals) = PICO_OK.
Proof.
  assert (Hm : 3 < 0 \/ 2 < 3) by lia.
  assert (Hp : 7 < 0 \/ 6 < 7) by lia.
  destruct (pico_values_outside_enumerations static_globals 3 7 Hm Hp)
    as (Hmode & _ & Hprofile).
  split; [exact Hmode | exact Hprofile].
Defined.

(** C9, as stated, fails: the profile value 7 names no preset, and the
    call returns [PICO_OK]. *)
Lemma pico_apply_voice_profile_unknown_succeeds :
  ~ (forall profile g,
       profile < 0 \/ 6 < profile ->
       fst (pico_apply_voice_profile profile g) <> PICO_OK).
Proof.
  intros H. apply (H 7 static_globals); [lia | reflexivity].
Qed.

(* ===================================================================== *)
(** * Further properties: Q15 arithmetic *)
(* ===================================================================== *)

Lemma pico_q15_add_sat_clamp a b :
  is_int16 a -> is_int16 b ->
  pico_q15_add_sat a b = q15_clamp (a + b) /\ is_int16 (pico_q15_add_sat a b).
Proof.
  unfold is_int16; intros Ha Hb.
  unfold pico_q15_add_sat, q15_clamp.
  rewrite to_int32_id by lia.
  destruct PICO_Q15_limits as [-> ->].
  destruct (Z.gtb_spec (a + b) 32767); [lia |].
  destruct (Z.ltb_spec (a + b) (-32768)); [lia |].
  rewrite to_int16_id by (unfold is_int16; lia). lia.
Qed.

(** X1.  For Q15 operands, [pico_q15_sub_sat a b] is the difference
    [a - b] clamped into [-32768, 32767]; it is the plain difference
    whenever that is in range. *)
Theorem pico_q15_sub_sat_correct (a b : Z) :
  is_int16 a -> is_int16 b ->
  is_int16 (pico_q15_sub_sat a b)
  /\ pico_q15_sub_sat a b = q15_clamp (a - b)
  /\ (is_int16 (a - b) -> pico_q15_sub_sat a b = a - b).
Proof.
  unfold is_int16; intros Ha Hb.
  unfold pico_q15_sub_sat, q15_clamp.
  rewrite to_int32_id by lia.
  destruct PICO_Q15_limits as [-> ->].
  destruct (Z.gtb_spec (a - b) 32767); [lia |].
  destruct (Z.ltb_spec (a - b) (-32768)); [lia |].
  rewrite to_int16_id by (unfold is_int16; lia). lia.
Qed.

Lemma pico_q15_sub_sat_correct_witness :
  pico_q15_sub_sat (-32768) 1 = -32768 /\ pico_q15_sub_sat 300 200 = 100.
Proof.
  assert (H1 : is_int16 (-32768)) by (unfold is_int16; lia).
  assert (H2 : is_int16 1) by (unfold is_int16; lia).
  assert (H3 : is_int16 300) by (unfold is_int16; lia).
  assert (H4 : is_int16 200) by (unfold is_int16; lia).
  split.
  - exact (proj1 (proj2 (pico_q15_sub_sat_correct (-32768) 1 H1 H2))).
  - apply (proj2 (proj2 (pico_q15_sub_sat_correct 300 200 H3 H4))).
    unfold is_int16; lia.
Defined.

Lemma q15_product_bounds a b :
  is_int16 a -> is_int16 b ->
  -1073709056 <= a * b <= 1073741824
  /\ (a <> -32768 \/ b <> -32768 -> a * b <= 1073709056).
Proof.
  unfold is_int16; intros Ha Hb. split; [split |]; [nia | nia |].
  intros [H | H]; nia.
Qed.

(** X2.  For Q15 operands, [pico_q15_mult a b] is the product divided by
    [2^15] and rounded down, and it is a Q15 value, with one exception:
    the square of -32768 (of -1.0) does not fit and comes back as -32768
    again. *)
Theorem pico_q15_mult_floor (a b : Z) :
  is_int16 a -> is_int16 b ->
  (a <> -32768 \/ b <> -32768 ->
   pico_q15_mult a b = a * b / 32768 /\ is_int16 (a * b / 32768))
  /\ (a = -32768 -> b = -32768 -> pico_q15_mult a b = -32768).
Proof.
  intros Ha Hb. destruct (q15_product_bounds a b Ha Hb) as [Hp Hq]. split.
  - intros Hne. specialize (Hq Hne).
    assert (Hr : is_int16 (a * b / 32768)) by (unfold is_int16; zdivmod).
    split; [| exact Hr].
    unfold pico_q15_mult, PICO_Q15_SHIFT.
    rewrite to_int32_id by lia.
    rewrite Z.shiftr_div_pow2 by lia. change (2 ^ 15) with 32768.
    now apply to_int16_id.
  - intros -> ->. reflexivity.
Qed.

Lemma pico_q15_mult_floor_witness :
  pico_q15_mult 16384 16384 = 8192 /\ pico_q15_mult (-1) 1 = -1.
Proof.
  assert (H1 : is_int16 16384) by (unfold is_int16; lia).
  assert (H2 : is_int16 (-1)) by (unfold is_int16; lia).
  assert (H3 : is_int16 1) by (unfold is_int16; lia).
  split.
  - apply (proj1 (pico_q15_mult_floor 16384 16384 H1 H1)). left; lia.
  - apply (proj1 (pico_q15_mult_floor (-1) 1 H2 H3)). left; lia.
Defined.

(** X3.  [pico_q15_mac] does not saturate: for Q15 operands it is the
    sum of the accumulator and the product when that sum is a Q15
    value, and otherwise the sum wrapped around by [2^16]. *)
Theorem pico_q15_mac_wraps (acc a b : Z) :
  is_int16 acc -> is_int16 a -> is_int16 b ->
  let s := acc + pico_q15_mult a b in
  (is_int16 s -> pico_q15_mac acc a b = s)
  /\ (32767 < s -> pico_q15_mac acc a b = s - 65536)
  /\ (s < -32768 -> pico_q15_mac acc a b = s + 65536).
Proof.
  intros Hacc _ _. cbv zeta. unfold pico_q15_mac.
  pose proof (to_int16_range
                (Z.shiftr (to_int32 (a * b)) PICO_Q15_SHIFT)) as Hm.
  fold (pico_q15_mult a b) in Hm.
  generalize dependent (pico_q15_mult a b). intros m Hm.
  unfold is_int16 in *. repeat split; intros H; unfold_casts; zdivmod.
Qed.

Lemma pico_q15_mac_wraps_witness :
  pico_q15_mac 32767 16384 16384 = -24577.
Proof.
  assert (H1 : is_int16 32767) by (unfold is_int16; lia).
  assert (H2 : is_int16 16384) by (unfold is_int16; lia).
  apply (proj1 (proj2 (pico_q15_mac_wraps 32767 16384 16384 H1 H2 H2))).
  vm_compute. reflexivity.
Defined.

Lemma q15_at_range (a : list Z) i :
  Forall is_int16 a -> is_int16 (q15_at a i).
Proof.
  intros Ha. unfold q15_at.
  destruct (nth_in_or_default (Z.to_nat i) a 0) as [Hin | ->].
  - rewrite Forall_forall in Ha. apply Ha. now apply list_elem_of_In.
  - unfold is_int16; lia.
Qed.

Lemma dot_product_loop_sum (a b : list Z) :
  Forall is_int16 a -> Forall is_int16 b ->
  forall n k,
    (forall j, (j <= k + n)%nat -> is_int32 (dot_sum a b j)) ->
    dot_product_loop a b n (Z.of_nat k) (dot_sum a b k)
    = dot_sum a b (k + n).
Proof.
  intros Ha Hb. induction n as [| n IH]; intros k Hfit.
  - now rewrite Nat.add_0_r.
  - cbn [dot_product_loop].
    destruct (q15_product_bounds _ _ (q15_at_range a (Z.of_nat k) Ha)
                (q15_at_range b (Z.of_nat k) Hb)) as [Hp _].
    rewrite (to_int32_id (q15_at a (Z.of_nat k) * q15_at b (Z.of_nat k)))
      by lia.
    assert (Hs : is_int32 (dot_sum a b (S k))) by (apply Hfit; lia).
    cbn [dot_sum] in Hs. rewrite to_int32_id by exact Hs.
    replace (Z.of_nat k + 1) with (Z.of_nat (S k)) by lia.
    change (dot_sum a b k + q15_at a (Z.of_nat k) * q15_at b (Z.of_nat k))
      with (dot_sum a b (S k)).
    rewrite IH by (intros j Hj; apply Hfit; lia).
    f_equal. lia.
Qed.

(** X4.  For two arrays of Q15 values with at least [len] elements,
    whose sums of the first [j] products stay within 32 bits for every
    [j] up to [len], [pico_q15_dot_product] is the full sum of the [len]
    products divided by [2^15] and rounded down: the products are
    accumulated unshifted and shifted once at the end.  For [len <= 0]
    the result is 0. *)
Theorem pico_q15_dot_product_sum (a b : list Z) (len : Z) :
  Forall is_int16 a -> Forall is_int16 b ->
  len <= Z.of_nat (length a) -> len <= Z.of_nat (length b) ->
  (forall j, (j <= Z.to_nat len)%nat -> is_int32 (dot_sum a b j)) ->
  pico_q15_dot_product a b len = dot_sum a b (Z.to_nat len) / 32768
  /\ (len <= 0 -> pico_q15_dot_product a b len = 0).
Proof.
  intros Ha Hb _ _ Hfit. unfold pico_q15_dot_product, PICO_Q15_SHIFT.
  pose proof (dot_product_loop_sum a b Ha Hb (Z.to_nat len) 0 Hfit) as H.
  change (Z.of_nat 0) with 0 in H. change (dot_sum a b 0) with 0 in H.
  rewrite Nat.add_0_l in H. rewrite H.
  rewrite Z.shiftr_div_pow2 by lia. change (2 ^ 15) with 32768.
  split; [reflexivity |].
  intros Hle. replace (Z.to_nat len) with 0%nat by lia. reflexivity.
Qed.

Lemma pico_q15_dot_product_sum_witness :
  pico_q15_dot_product [16384; -16384; 32767] [16384; 16384; 32767] 3 = 32766.
Proof.
  assert (Ha : Forall is_int16 [16384; -16384; 32767])
    by (repeat constructor; unfold is_int16; lia).
  assert (Hb : Forall is_int16 [16384; 16384; 32767])
    by (repeat constructor; unfold is_int16; lia).
  assert (Hfit : forall j, (j <= Z.to_nat 3)%nat ->
            is_int32 (dot_sum [16384; -16384; 32767] [16384; 16384; 32767] j)).
  { intros j Hj. change (Z.to_nat 3) with 3%nat in Hj.
    assert (Hc : j = 0%nat \/ j = 1%nat \/ j = 2%nat \/ j = 3%nat) by lia.
    destruct Hc as [-> | [-> | [-> | ->]]]; unfold is_int32; vm_compute;
      split; discriminate. }
  rewrite (proj1 (pico_q15_dot_product_sum _ _ 3 Ha Hb
                    ltac:(cbn; lia) ltac:(cbn; lia) Hfit)).
  reflexivity.
Defined.

(* ===================================================================== *)
(** * Further properties: Q15 vectors *)
(* ===================================================================== *)

Lemma vector_add_loop_spec (a b : list Z) n : forall k (out : list Z),
  (k + n <= length out)%nat ->
  length (vector_add_loop a b n (Z.of_nat k) out) = length out
  /\ forall j,
       ((k <= j < k + n)%nat ->
        nth j (vector_add_loop a b n (Z.of_nat k) out) 0
        = pico_q15_add_sat (q15_at a (Z.of_nat j)) (q15_at b (Z.of_nat j)))
       /\ ((j < k \/ k + n <= j)%nat ->
           nth j (vector_add_loop a b n (Z.of_nat k) out) 0 = nth j out 0).
Proof.
  induction n as [| n IH]; intros k out Hlen.
  - cbn [vector_add_loop]. split; [reflexivity |].
    intros j. split; [lia | reflexivity].
  - cbn [vector_add_loop]. rewrite Nat2Z.id.
    replace (Z.of_nat k + 1) with (Z.of_nat (S k)) by lia.
    set (v := pico_q15_add_sat (q15_at a (Z.of_nat k)) (q15_at b (Z.of_nat k))).
    destruct (IH (S k) (<[k := v]> out)) as [Hl Hj].
    { rewrite length_insert. lia. }
    rewrite length_insert in Hl. split; [exact Hl |].
    intros j. destruct (Hj j) as [Hin Hout]. split.
    + intros Hr. destruct (Nat.eq_dec j k) as [-> | Hne].
      * rewrite Hout by lia. rewrite nth_lookup, list_lookup_insert_eq by lia.
        reflexivity.
      * apply Hin. lia.
    + intros Hr. rewrite Hout by lia.
      rewrite !nth_lookup, list_lookup_insert_ne by lia. reflexivity.
Qed.

(** X5.  [pico_q15_vector_add] on Q15 arrays writes the first [len]
    cells of the output, each with the sum of the two inputs clamped into
    [-32768, 32767]; it leaves every cell from [len] on as it was and
    does not change the length of the output. *)
Theorem pico_q15_vector_add_correct (a b out : list Z) (len : Z) :
  Forall is_int16 a -> Forall is_int16 b ->
  len <= Z.of_nat (length a) -> len <= Z.of_nat (length b) ->
  len <= Z.of_nat (length out) ->
  length (pico_q15_vector_add a b out len) = length out
  /\ (forall i, 0 <= i < len ->
        q15_at (pico_q15_vector_add a b out len) i
        = q15_clamp (q15_at a i + q15_at b i))
  /\ (forall i, len <= i -> 0 <= i ->
        q15_at (pico_q15_vector_add a b out len) i = q15_at out i).
Proof.
  intros Ha Hb _ _ Hout. unfold pico_q15_vector_add.
  destruct (vector_add_loop_spec a b (Z.to_nat len) 0 out) as [Hl Hj]; [lia |].
  change (Z.of_nat 0) with 0 in *.
  split; [exact Hl |]. split.
  - intros i Hi. unfold q15_at at 1.
    rewrite (proj1 (Hj (Z.to_nat i))) by lia. rewrite Z2Nat.id by lia.
    apply pico_q15_add_sat_clamp; now apply q15_at_range.
  - intros i Hi Hpos. unfold q15_at.
    now rewrite (proj2 (Hj (Z.to_nat i))) by lia.
Qed.

Lemma pico_q15_vector_add_correct_witness :
  pico_q15_vector_add [30000; -30000; 5] [30000; -30000; 6] [9; 9; 9; 9] 2
  = [32767; -32768; 9; 9]
  /\ q15_at (pico_q15_vector_add [30000; -30000; 5] [30000; -30000; 6]
               [9; 9; 9; 9] 2) 0 = q15_clamp (30000 + 30000).
Proof.
  assert (Ha : Forall is_int16 [30000; -30000; 5])
    by (repeat constructor; unfold is_int16; lia).
  assert (Hb : Forall is_int16 [30000; -30000; 6])
    by (repeat constructor; unfold is_int16; lia).
  split; [reflexivity |].
  apply (proj1 (proj2 (pico_q15_vector_add_correct _ _ [9; 9; 9; 9] 2 Ha Hb
                         ltac:(cbn; lia) ltac:(cbn; lia) ltac:(cbn; lia)))).
  lia.
Defined.

(* ===================================================================== *)
(** * Further properties: the approximate square root *)
(* ===================================================================== *)

Lemma sqrt_approx_ok_from_sound n : forall x0,
  sqrt_approx_ok_from n x0 = true ->
  forall x, x0 <= x < x0 + Z.of_nat n -> sqrt_approx_ok x = true.
Proof.
  induction n as [| n IH]; intros x0 H x Hx; [lia |].
  cbn [sqrt_approx_ok_from] in H. apply andb_true_iff in H as [H0 Hrest].
  destruct (Z.eq_dec x x0) as [-> | Hne]; [exact H0 |].
  apply (IH (x0 + 1) Hrest). lia.
Qed.

Lemma sqrt_approx_ok_everywhere :
  sqrt_approx_ok_from (Z.to_nat 32766) 2 = true.
Proof. vm_compute. reflexivity. Qed.

(** X6.  [pico_q15_sqrt_approx] returns 0 for every [x <= 0].  For
    every Q15 value [x >= 2] the four Newton steps never divide by zero,
    and the result [r] fits 16 bits and is never below the integer
    square root of [x * 2^15] (the exact Q15 square root); for
    [x >= 16384] (one half) it exceeds it by at most one.  For [x = 1]
    the initial guess [x >> 1] is zero and the first step divides by
    it. *)
Theorem pico_q15_sqrt_approx_bounds (x : Z) :
  (x <= 0 -> pico_q15_sqrt_approx x = Some 0)
  /\ (x = 1 -> pico_q15_sqrt_approx x = None)
  /\ (2 <= x <= 32767 ->
      exists r,
        pico_q15_sqrt_approx x = Some r
        /\ 1 <= r <= 32767
        /\ x * 32768 < (r + 1) * (r + 1)
        /\ (16384 <= x -> (r - 1) * (r - 1) <= x * 32768)).
Proof.
  split; [| split].
  - intros H. unfold pico_q15_sqrt_approx.
    destruct (Z.leb_spec x 0); [reflexivity | lia].
  - intros ->. reflexivity.
  - intros H.
    assert (Hok : sqrt_approx_ok x = true).
    { apply (sqrt_approx_ok_from_sound _ 2 sqrt_approx_ok_everywhere).
      change (Z.of_nat (Z.to_nat 32766)) with 32766. lia. }
    unfold sqrt_approx_ok in Hok.
    destruct (pico_q15_sqrt_approx x) as [r |]; [| discriminate].
    exists r. split; [reflexivity |].
    apply andb_true_iff in Hok as [Hok H4].
    apply andb_true_iff in Hok as [Hok H3].
    apply andb_true_iff in Hok as [H1 H2].
    apply Z.leb_le in H1, H2. apply Z.ltb_lt in H3.
    split; [lia |]. split; [exact H3 |].
    intros Hx. apply orb_true_iff in H4 as [H4 | H4].
    + apply Z.ltb_lt in H4. lia.
    + now apply Z.leb_le in H4.
Qed.

Lemma pico_q15_sqrt_approx_bounds_witness :
  pico_q15_sqrt_approx (-5) = Some 0
  /\ exists r, pico_q15_sqrt_approx 16384 = Some r /\ 1 <= r <= 32767.
Proof.
  split.
  - apply (proj1 (pico_q15_sqrt_approx_bounds (-5))). lia.
  - destruct (proj2 (proj2 (pico_q15_sqrt_approx_bounds 16384)))
      as (r & Hr & Hb & _); [lia |].
    exists r. split; [exact Hr | exact Hb].
Defined.

(* ===================================================================== *)
(** * Further properties: the context hash *)
(* ===================================================================== *)






(* ===================================================================== *)
(** * Further properties: lookups *)
(* ===================================================================== *)

Lemma first_match_after_lookup c h t out r c' o h' t' :
  picodt_cache_lookup (Some c) h t (Some out) = (r, Some c', o) ->
  first_match c' h' t' = first_match c h' t'.
Proof.
  intros Hlk.
  destruct (picodt_cache_lookup_keeps_keys c h t out r c' o Hlk)
    as (_ & _ & Hkeys).
  unfold first_match, matches_at. cbn [List.find].
  now rewrite !Hkeys.
Qed.

Lemma pdf_index_record_hit c idx b k :
  pdf_index (entry_at (record_hit c idx b) k) = pdf_index (entry_at c k).
Proof.
  unfold entry_at, record_hit. cbn [entries].
  rewrite list_lookup_total_insert. case_decide as Hd; [| reflexivity].
  destruct Hd as [<- _]. reflexivity.
Qed.

Lemma pdf_index_after_lookup c h t out r c' o k :
  picodt_cache_lookup (Some c) h t (Some out) = (r, Some c', o) ->
  pdf_index (entry_at c' k) = pdf_index (entry_at c k).
Proof.
  destruct (Z.eq_dec (enabled c) 0) as [He | Hen].
  - unfold picodt_cache_lookup, picodt_cache_is_enabled. rewrite He.
    cbn [Z.eqb]. now intros [= _ <- _].
  - rewrite picodt_cache_lookup_first_match by exact Hen.
    destruct (first_match c h t); intros [= _ <- _];
      [apply pdf_index_record_hit | reflexivity].
Qed.

(** X8.  What a lookup answers.  On an enabled cache with a non-null
    out-parameter it returns 1 exactly when one of the four probed slots
    holds a valid entry with the hash and the tree asked for; the index
    stored is that of the first such slot in probe order, and [hits]
    advances by one (modulo [2^32]).  Otherwise it returns 0, leaves the
    out-parameter and every slot as they were, and [misses] advances by
    one.  [evictions] never changes. *)
Theorem picodt_cache_lookup_answer (c : picodt_cache_t) (h t out : Z) :
  enabled c <> 0 ->
  exists c',
    (first_match c h t = None
     /\ picodt_cache_lookup (Some c) h t (Some out) = (0, Some c', Some out)
     /\ (forall i, 0 <= i < 4 -> matches_at c h t i = false)
     /\ entries c' = entries c
     /\ hits (stats c') = hits (stats c)
     /\ misses (stats c') = to_uint32 (misses (stats c) + 1)
     /\ evictions (stats c') = evictions (stats c))
    \/ (exists i e,
          first_match c h t = Some i
          /\ 0 <= i < 4
          /\ e = entry_at c (probe_index (get_cache_index h) i)
          /\ valid e <> 0 /\ context_hash e = h /\ tree_id e = t
          /\ (forall j, 0 <= j < i -> matches_at c h t j = false)
          /\ picodt_cache_lookup (Some c) h t (Some out)
             = (1, Some c', Some (pdf_index e))
          /\ hits (stats c') = to_uint32 (hits (stats c) + 1)
          /\ misses (stats c') = misses (stats c)
          /\ evictions (stats c') = evictions (stats c)).
Proof.
  intros Hen. rewrite picodt_cache_lookup_first_match by exact Hen.
  destruct (first_match c h t) as [i |] eqn:Hfm.
  - eexists. right. exists i, (entry_at c (probe_index (get_cache_index h) i)).
    destruct (first_match_some c h t i Hfm) as [Hi Hm].
    split; [reflexivity |]. split; [exact Hi |]. split; [reflexivity |].
    unfold matches_at, entry_matches in Hm.
    apply andb_true_iff in Hm as [Hm Ht]. apply andb_true_iff in Hm as [Hv Hh].
    apply negb_true_iff, Z.eqb_neq in Hv. apply Z.eqb_eq in Hh, Ht.
    repeat (split; [assumption |]).
    split.
    + intros j Hj. unfold first_match in Hfm. cbn [List.find] in Hfm.
      assert (Hc : i = 0 \/ i = 1 \/ i = 2 \/ i = 3) by lia.
      assert (Hd : j = 0 \/ j = 1 \/ j = 2) by lia.
      destruct (matches_at c h t 0) eqn:E0;
        [injection Hfm as <-; lia |].
      destruct (matches_at c h t 1) eqn:E1;
        [injection Hfm as <-; replace j with 0 by lia; exact E0 |].
      destruct (matches_at c h t 2) eqn:E2;
        [injection Hfm as <-;
         destruct Hd as [-> | [-> | ->]]; [assumption | assumption | lia] |].
      destruct Hd as [-> | [-> | ->]]; assumption.
    + repeat split; reflexivity.
  - eexists. left. split; [reflexivity |]. split; [reflexivity |].
    split; [intros i Hi; exact (first_match_none c h t i Hfm Hi) |].
    repeat split; reflexivity.
Qed.

Lemma picodt_cache_lookup_answer_witness :
  exists c',
    picodt_cache_lookup (Some cache_one_insert) 0 0 (Some 7)
    = (1, Some c', Some 1).
Proof.
  assert (Hen : enabled cache_one_insert <> 0)
    by (change (enabled cache_one_insert) with 1; lia).
  destruct (picodt_cache_lookup_answer cache_one_insert 0 0 7 Hen)
    as (c' & [(Hfm & _) | (i & e & Hfm & _ & He & _ & _ & _ & _ & Hlk & _)]).
  - vm_compute in Hfm. discriminate Hfm.
  - exists c'. rewrite Hlk.
    vm_compute in Hfm. injection Hfm as <-. subst e. reflexivity.
Defined.

(** X9.  Lookups do not disturb each other: after a lookup of any key,
    a lookup of any key (the same one or another) returns the flag and
    stores the index it would have returned and stored before. *)
Theorem picodt_cache_lookup_keeps_answers (c : picodt_cache_t)
  (h1 t1 out1 r1 : Z) (c1 : picodt_cache_t) (o1 : option Z) :
  picodt_cache_lookup (Some c) h1 t1 (Some out1) = (r1, Some c1, o1) ->
  forall h2 t2 out2,
    lookup_answer c1 h2 t2 out2 = lookup_answer c h2 t2 out2.
Proof.
  intros Hlk h2 t2 out2.
  destruct (picodt_cache_lookup_keeps_keys c h1 t1 out1 r1 c1 o1 Hlk)
    as (_ & Hen & _).
  unfold lookup_answer.
  destruct (Z.eq_dec (enabled c) 0) as [He | Hne].
  - unfold picodt_cache_lookup, picodt_cache_is_enabled.
    rewrite Hen, He. reflexivity.
  - rewrite !picodt_cache_lookup_first_match by congruence.
    rewrite (first_match_after_lookup c h1 t1 out1 r1 c1 o1 h2 t2 Hlk).
    destruct (first_match c h2 t2); [| reflexivity].
    now rewrite (pdf_index_after_lookup c h1 t1 out1 r1 c1 o1 _ Hlk).
Qed.

Lemma picodt_cache_lookup_keeps_answers_witness :
  lookup_answer (after_lookup 5 5 cache_one_insert) 0 0 7 = (1, Some 1).
Proof.
  rewrite (picodt_cache_lookup_keeps_answers cache_one_insert 5 5 0 0
             (after_lookup 5 5 cache_one_insert) (Some 0) eq_refl 0 0 7).
  reflexivity.
Defined.

(** X10.  Clearing forgets every entry: on an enabled cache, the first
    lookup of any key after [picodt_cache_clear] returns 0, leaves the
    out-parameter alone and is the only lookup counted (no hits, one
    miss); the hit rate is then 0. *)
Theorem picodt_cache_clear_forgets (c : picodt_cache_t) (h t out : Z) :
  enabled c <> 0 ->
  exists c1 c2,
    picodt_cache_clear (Some c) = Some c1
    /\ picodt_cache_lookup (Some c1) h t (Some out) = (0, Some c2, Some out)
    /\ hits (stats c2) = 0 /\ misses (stats c2) = 1
    /\ picodt_cache_hit_rate (Some c2) = 0.
Proof.
  intros Hen. eexists. eexists. split; [reflexivity |].
  rewrite picodt_cache_lookup_first_match by exact Hen.
  unfold first_match. cbn [List.find].
  rewrite !reset_entries_invalid.
  repeat split; reflexivity.
Qed.

Lemma picodt_cache_clear_forgets_witness :
  exists c1 c2,
    picodt_cache_clear (Some cache_two_inserts) = Some c1
    /\ picodt_cache_lookup (Some c1) 0 0 (Some 9) = (0, Some c2, Some 9).
Proof.
  assert (Hen : enabled cache_two_inserts <> 0)
    by (change (enabled cache_two_inserts) with 1; lia).
  destruct (picodt_cache_clear_forgets cache_two_inserts 0 0 9 Hen)
    as (c1 & c2 & Hc & Hl & _).
  exists c1, c2. split; [exact Hc | exact Hl].
Defined.

(** X11.  A disabled cache is inert: whatever lookups and inserts are
    made on it, it does not change (no slot, no counter, not the clock)
    and every lookup returns 0 without touching the out-parameter; so
    when it is enabled again it answers as it did before it was
    disabled. *)
Theorem picodt_cache_disabled_inert (c : picodt_cache_t)
  (ks : list cache_call) :
  enabled c = 0 ->
  run_cache_calls ks c = c
  /\ (forall h t out p,
        picodt_cache_lookup (Some c) h t out = (0, Some c, out)
        /\ picodt_cache_insert (Some c) h t p = Some c)
  /\ (forall c0 en, en <> 0 -> enabled c0 = en ->
        picodt_cache_set_enabled (Some c0) 0 = Some c ->
        picodt_cache_set_enabled (Some (run_cache_calls ks c)) en = Some c0).
Proof.
  intros Hdis.
  assert (Hlk : forall h t pdf,
            picodt_cache_lookup (Some c) h t pdf = (0, Some c, pdf)).
  { intros h t [out |]; unfold picodt_cache_lookup, picodt_cache_is_enabled;
      [rewrite Hdis |]; reflexivity. }
  assert (Hins : forall h t p, picodt_cache_insert (Some c) h t p = Some c).
  { intros h t p. unfold picodt_cache_insert, picodt_cache_is_enabled.
    rewrite Hdis. reflexivity. }
  assert (Hrun : run_cache_calls ks c = c).
  { unfold run_cache_calls. induction ks as [| k ks IH]; [reflexivity |].
    cbn [fold_left].
    replace (run_cache_call k c) with c; [exact IH |].
    destruct k as [h t | h t p]; cbn [run_cache_call].
    - unfold after_lookup. now rewrite Hlk.
    - unfold after_insert. now rewrite Hins. }
  split; [exact Hrun |].
  split; [intros h t out p; split; [apply Hlk | apply Hins] |].
  intros c0 en _ Hen0 [= <-]. rewrite Hrun. cbn.
  destruct c0. cbn in *. now subst en.
Qed.

Lemma picodt_cache_disabled_inert_witness :
  run_cache_calls [CacheInsert 1 2 3; CacheLookup 0 0]
    (mk_cache (entries cache_one_insert) (stats cache_one_insert) 0
       (clock cache_one_insert))
  = mk_cache (entries cache_one_insert) (stats cache_one_insert) 0
      (clock cache_one_insert).
Proof.
  exact (proj1 (picodt_cache_disabled_inert
                  (mk_cache (entries cache_one_insert)
                     (stats cache_one_insert) 0 (clock cache_one_insert))
                  [CacheInsert 1 2 3; CacheLookup 0 0] eq_refl)).
Defined.

(* ===================================================================== *)
(** * Further properties: inserts *)
(* ===================================================================== *)

(** Both branches of the insert store at the slot [find_lru_entry]
    names: when the primary slot is empty the search stops at it. *)
Lemma picodt_cache_insert_unfold c h t p :
  enabled c <> 0 ->
  picodt_cache_insert (Some c) h t p
  = Some (store_entry
            (if valid (entry_at c (find_lru_entry c (get_cache_index h))) =? 0
             then c else count_eviction c)
            (find_lru_entry c (get_cache_index h)) h t p).
Proof.
  intros Hen. unfold picodt_cache_insert, picodt_cache_is_enabled.
  destruct (Z.eqb_spec (enabled c) 0) as [He | _]; [contradiction |].
  cbn [Z.eqb].
  destruct (valid (entry_at c (get_cache_index h)) =? 0) eqn:E; [| reflexivity].
  assert (Hf : find_lru_entry c (get_cache_index h) = get_cache_index h).
  { unfold find_lru_entry. cbn [find_lru_loop].
    rewrite probe_index_0. now rewrite E. }
  rewrite Hf, E. reflexivity.
Qed.

Lemma find_lru_loop_first_free c start n : forall i lru min_access j,
  i <= j < i + Z.of_nat n ->
  valid (entry_at c (probe_index start j)) = 0 ->
  (forall j', i <= j' < j -> valid (entry_at c (probe_index start j')) <> 0) ->
  find_lru_loop c start n i lru min_access = probe_index start j.
Proof.
  induction n as [| n IH]; intros i lru min_access j Hj Hfree Hbusy; [lia |].
  cbn [find_lru_loop].
  destruct (Z.eq_dec i j) as [-> | Hne].
  - now rewrite Hfree.
  - destruct (Z.eqb_spec (valid (entry_at c (probe_index start i))) 0)
      as [E | _]; [exfalso; apply (Hbusy i); [lia | exact E] |].
    destruct (access_count (entry_at c (probe_index start i)) <? min_access);
      apply IH; try assumption; try lia; intros j' Hj'; apply Hbusy; lia.
Qed.

Lemma find_lru_loop_full c start n : forall i lru min_access,
  (forall j, i <= j < i + Z.of_nat n ->
     valid (entry_at c (probe_index start j)) <> 0) ->
  (find_lru_loop c start n i lru min_access = lru
   /\ forall j, i <= j < i + Z.of_nat n ->
        min_access <= access_count (entry_at c (probe_index start j)))
  \/ exists k,
       i <= k < i + Z.of_nat n
       /\ find_lru_loop c start n i lru min_access = probe_index start k
       /\ access_count (entry_at c (probe_index start k)) < min_access
       /\ (forall j, i <= j < i + Z.of_nat n ->
             access_count (entry_at c (probe_index start k))
             <= access_count (entry_at c (probe_index start j)))
       /\ (forall j, i <= j < k ->
             access_count (entry_at c (probe_index start k))
             < access_count (entry_at c (probe_index start j))).
Proof.
  induction n as [| n IH]; intros i lru min_access Hfull.
  - left. split; [reflexivity | intros j Hj; lia].
  - cbn [find_lru_loop].
    destruct (Z.eqb_spec (valid (entry_at c (probe_index start i))) 0)
      as [E | _]; [exfalso; apply (Hfull i); [lia | exact E] |].
    set (a := access_count (entry_at c (probe_index start i))).
    assert (Hfull' : forall j, i + 1 <= j < i + 1 + Z.of_nat n ->
              valid (entry_at c (probe_index start j)) <> 0)
      by (intros j Hj; apply Hfull; lia).
    destruct (Z.ltb_spec a min_access) as [Hlt | Hge].
    + destruct (IH (i + 1) (probe_index start i) a Hfull')
        as [[-> Hmin] | (k & Hk & -> & Hka & Hmin & Hfirst)].
      * right. exists i. split; [lia |]. split; [reflexivity |].
        split; [exact Hlt |]. split.
        -- intros j Hj. destruct (Z.eq_dec j i) as [-> | Hne]; [lia |].
           apply Hmin. lia.
        -- intros j Hj. lia.
      * right. exists k. split; [lia |]. split; [reflexivity |].
        split; [lia |]. split.
        -- intros j Hj. destruct (Z.eq_dec j i) as [-> | Hne];
             [fold a; lia | apply Hmin; lia].
        -- intros j Hj. destruct (Z.eq_dec j i) as [-> | Hne];
             [fold a; lia | apply Hfirst; lia].
    + destruct (IH (i + 1) lru min_access Hfull')
        as [[-> Hmin] | (k & Hk & -> & Hka & Hmin & Hfirst)].
      * left. split; [reflexivity |].
        intros j Hj. destruct (Z.eq_dec j i) as [-> | Hne];
          [fold a; lia | apply Hmin; lia].
      * right. exists k. split; [lia |]. split; [reflexivity |].
        split; [exact Hka |]. split.
        -- intros j Hj. destruct (Z.eq_dec j i) as [-> | Hne];
             [fold a; lia | apply Hmin; lia].
        -- intros j Hj. destruct (Z.eq_dec j i) as [-> | Hne];
             [fold a; lia | apply Hfirst; lia].
Qed.

Lemma store_entry_frame c0 c idx h t p :
  cache_wf c -> entries c0 = entries c -> clock c0 = clock c ->
  0 <= idx < 256 ->
  entry_at (store_entry c0 idx h t p) idx = mk_entry h p t 1 (clock c)
  /\ (forall j, 0 <= j -> j <> idx ->
        entry_at (store_entry c0 idx h t p) j = entry_at c j)
  /\ cache_wf (store_entry c0 idx h t p).
Proof.
  intros Hwf He Hc Hidx.
  assert (Hs : entries (store_entry c0 idx h t p)
               = <[Z.to_nat idx := mk_entry h p t 1 (clock c)]> (entries c)).
  { unfold store_entry. cbn [entries]. now rewrite He, Hc. }
  split; [| split].
  - exact (entry_at_insert_eq c _ idx _ Hwf Hidx Hs).
  - intros j Hj Hne.
    apply (entry_at_insert_ne c _ idx j (mk_entry h p t 1 (clock c)));
      [lia | exact Hj | congruence | exact Hs].
  - unfold cache_wf in *. rewrite Hs, length_insert. exact Hwf.
Qed.

(** X12.  An insert into an enabled cache changes exactly one slot, and
    that slot is one of the four of the window of the hash: it receives
    the new entry, valid and stamped with the clock; every other slot of
    the array is as before.  The clock advances by one modulo 256, the
    hit, miss and collision counters do not move, and [evictions]
    advances by one exactly when the slot written held a valid entry. *)
Theorem picodt_cache_insert_frame (c : picodt_cache_t) (h t p : Z) :
  cache_wf c -> enabled c <> 0 ->
  exists c1 idx,
    picodt_cache_insert (Some c) h t p = Some c1
    /\ In idx (probe_window h)
    /\ entry_at c1 idx = mk_entry h p t 1 (clock c)
    /\ (forall j, 0 <= j -> j <> idx -> entry_at c1 j = entry_at c j)
    /\ cache_wf c1
    /\ enabled c1 = enabled c
    /\ clock c1 = to_uint8 (clock c + 1)
    /\ hits (stats c1) = hits (stats c)
    /\ misses (stats c1) = misses (stats c)
    /\ collisions (stats c1) = collisions (stats c)
    /\ evictions (stats c1)
       = (if valid (entry_at c idx) =? 0 then evictions (stats c)
          else to_uint32 (evictions (stats c) + 1)).
Proof.
  intros Hwf Hen. rewrite picodt_cache_insert_unfold by exact Hen.
  destruct (find_lru_entry_slot c h) as (k & Hk & Hidx).
  eexists. exists (find_lru_entry c (get_cache_index h)).
  split; [reflexivity |].
  split.
  { rewrite Hidx, probe_window_eq.
    assert (Hc : k = 0 \/ k = 1 \/ k = 2 \/ k = 3) by lia.
    destruct Hc as [-> | [-> | [-> | ->]]]; cbn; auto. }
  assert (Hr : 0 <= find_lru_entry c (get_cache_index h) < 256)
    by (rewrite Hidx; apply probe_index_range).
  destruct (valid (entry_at c (find_lru_entry c (get_cache_index h))) =? 0).
  - destruct (store_entry_frame c c _ h t p Hwf eq_refl eq_refl Hr)
      as (H1 & H2 & H3).
    repeat (split; [first [exact H1 | exact H2 | exact H3 | reflexivity] |]).
    reflexivity.
  - destruct (store_entry_frame (count_eviction c) c _ h t p Hwf eq_refl
                eq_refl Hr) as (H1 & H2 & H3).
    repeat (split; [first [exact H1 | exact H2 | exact H3 | reflexivity] |]).
    reflexivity.
Qed.

Lemma picodt_cache_insert_frame_witness :
  exists c1 idx,
    picodt_cache_insert (Some cache_one_insert) 256 7 9 = Some c1
    /\ In idx (probe_window 256)
    /\ entry_at c1 idx = mk_entry 256 9 7 1 (clock cache_one_insert).
Proof.
  assert (Hen : enabled cache_one_insert <> 0)
    by (change (enabled cache_one_insert) with 1; lia).
  destruct (picodt_cache_insert_frame cache_one_insert 256 7 9 eq_refl Hen)
    as (c1 & idx & H1 & H2 & H3 & _).
  exists c1, idx. auto.
Defined.

(** X13.  An insert prefers an empty slot: when some slot of the window
    is not valid, the entry goes to the first such slot in probe order,
    nothing is evicted, and every entry that was valid anywhere in the
    cache is still there unchanged. *)
Theorem picodt_cache_insert_prefers_empty (c : picodt_cache_t)
  (h t p j : Z) :
  cache_wf c -> enabled c <> 0 ->
  0 <= j < 4 ->
  valid (entry_at c (probe_index (get_cache_index h) j)) = 0 ->
  (forall i, 0 <= i < j ->
     valid (entry_at c (probe_index (get_cache_index h) i)) <> 0) ->
  exists c1,
    picodt_cache_insert (Some c) h t p = Some c1
    /\ entry_at c1 (probe_index (get_cache_index h) j)
       = mk_entry h p t 1 (clock c)
    /\ evictions (stats c1) = evictions (stats c)
    /\ (forall idx, 0 <= idx -> valid (entry_at c idx) <> 0 ->
          entry_at c1 idx = entry_at c idx).
Proof.
  intros Hwf Hen Hj Hfree Hbusy.
  rewrite picodt_cache_insert_unfold by exact Hen.
  assert (Hf : find_lru_entry c (get_cache_index h)
               = probe_index (get_cache_index h) j).
  { unfold find_lru_entry.
    apply find_lru_loop_first_free; [cbn; lia | exact Hfree | exact Hbusy]. }
  rewrite Hf, Hfree. cbn [Z.eqb].
  destruct (store_entry_frame c c (probe_index (get_cache_index h) j) h t p
              Hwf eq_refl eq_refl (probe_index_range _ _)) as (H1 & H2 & _).
  eexists. split; [reflexivity |]. split; [exact H1 |].
  split; [reflexivity |].
  intros idx Hidx Hv. apply H2; [exact Hidx |]. congruence.
Qed.

Lemma picodt_cache_insert_prefers_empty_witness :
  exists c1,
    picodt_cache_insert (Some cache_one_insert) 0 5 6 = Some c1
    /\ entry_at c1 (probe_index (get_cache_index 0) 1)
       = mk_entry 0 6 5 1 (clock cache_one_insert)
    /\ evictions (stats c1) = evictions (stats cache_one_insert).
Proof.
  assert (Hen : enabled cache_one_insert <> 0)
    by (change (enabled cache_one_insert) with 1; lia).
  destruct (picodt_cache_insert_prefers_empty cache_one_insert 0 5 6 1
              eq_refl Hen ltac:(lia) eq_refl) as (c1 & H1 & H2 & H3 & _).
  - intros i Hi. replace i with 0 by lia. vm_compute. discriminate.
  - exists c1. auto.
Defined.

(** X14.  In a window whose four slots are all valid, an insert
    overwrites the slot with the smallest access stamp, the first one in
    probe order when several share it, counts one eviction, and leaves
    the other three slots of the window as they were. *)
Theorem picodt_cache_insert_evicts_oldest (c : picodt_cache_t) (h t p : Z) :
  cache_wf c -> enabled c <> 0 ->
  window_full c h ->
  (forall i, 0 <= i < 4 ->
     is_uint8 (access_count (entry_at c (probe_index (get_cache_index h) i)))) ->
  exists c1 k,
    0 <= k < 4
    /\ picodt_cache_insert (Some c) h t p = Some c1
    /\ entry_at c1 (probe_index (get_cache_index h) k)
       = mk_entry h p t 1 (clock c)
    /\ (forall i, 0 <= i < 4 ->
          access_count (entry_at c (probe_index (get_cache_index h) k))
          <= access_count (entry_at c (probe_index (get_cache_index h) i)))
    /\ (forall i, 0 <= i < k ->
          access_count (entry_at c (probe_index (get_cache_index h) k))
          < access_count (entry_at c (probe_index (get_cache_index h) i)))
    /\ (forall i, 0 <= i < 4 -> i <> k ->
          entry_at c1 (probe_index (get_cache_index h) i)
          = entry_at c (probe_index (get_cache_index h) i))
    /\ evictions (stats c1) = to_uint32 (evictions (stats c) + 1).
Proof.
  intros Hwf Hen Hfull Hty.
  rewrite picodt_cache_insert_unfold by exact Hen.
  assert (Hk : exists k,
            0 <= k < 4
            /\ find_lru_entry c (get_cache_index h)
               = probe_index (get_cache_index h) k
            /\ (forall i, 0 <= i < 4 ->
                  access_count (entry_at c (probe_index (get_cache_index h) k))
                  <= access_count
                       (entry_at c (probe_index (get_cache_index h) i)))
            /\ (forall i, 0 <= i < k ->
                  access_count (entry_at c (probe_index (get_cache_index h) k))
                  < access_count
                      (entry_at c (probe_index (get_cache_index h) i)))).
  { unfold find_lru_entry.
    destruct (find_lru_loop_full c (get_cache_index h) 4 0
                (get_cache_index h) 255)
      as [[-> Hmin] | (k & Hk & -> & _ & Hmin & Hfirst)].
    - intros j Hj. apply Hfull. cbn in Hj. lia.
    - exists 0. split; [lia |]. split; [now rewrite probe_index_0 |]. split.
      + intros i Hi. specialize (Hmin i ltac:(cbn; lia)).
        pose proof (Hty 0 ltac:(lia)) as H0. unfold is_uint8 in H0. lia.
      + intros i Hi. lia.
    - exists k. split; [cbn in Hk; lia |]. split; [reflexivity |]. split.
      + intros i Hi. apply Hmin. cbn. lia.
      + exact Hfirst. }
  destruct Hk as (k & Hk & Hf & Hmin & Hfirst). rewrite Hf.
  destruct (Z.eqb_spec (valid (entry_at c (probe_index (get_cache_index h) k))) 0)
    as [E | _]; [exfalso; exact (Hfull k Hk E) |].
  destruct (store_entry_frame (count_eviction c) c
              (probe_index (get_cache_index h) k) h t p
              Hwf eq_refl eq_refl (probe_index_range _ _)) as (H1 & H2 & _).
  eexists. exists k. split; [exact Hk |]. split; [reflexivity |].
  split; [exact H1 |]. split; [exact Hmin |]. split; [exact Hfirst |].
  split; [| reflexivity].
  intros i Hi Hne. apply H2; [apply probe_index_range |].
  intros Heq. apply Hne. now apply (probe_index_inj (get_cache_index h)).
Qed.

Lemma picodt_cache_insert_evicts_oldest_witness :
  exists c1,
    picodt_cache_insert (Some cache_full_window) 0 9 99 = Some c1
    /\ entry_at c1 1 = mk_entry 0 99 9 1 (clock cache_full_window)
    /\ evictions (stats c1) = 1.
Proof.
  assert (Hen : enabled cache_full_window <> 0)
    by (change (enabled cache_full_window) with 1; lia).
  assert (Hfull : window_full cache_full_window 0).
  { intros i Hi.
    assert (Hc : i = 0 \/ i = 1 \/ i = 2 \/ i = 3) by lia.
    destruct Hc as [-> | [-> | [-> | ->]]]; vm_compute; discriminate. }
  assert (Hty : forall i, 0 <= i < 4 ->
            is_uint8 (access_count
                        (entry_at cache_full_window
                           (probe_index (get_cache_index 0) i)))).
  { intros i Hi.
    assert (Hc : i = 0 \/ i = 1 \/ i = 2 \/ i = 3) by lia.
    destruct Hc as [-> | [-> | [-> | ->]]]; vm_compute;
      (split; [discriminate | reflexivity]). }
  destruct (picodt_cache_insert_evicts_oldest cache_full_window 0 9 99
              eq_refl Hen Hfull Hty)
    as (c1 & k & Hk & Hins & Hnew & Hmin & _ & _ & Hev).
  exists c1. split; [exact Hins |].
  assert (Hk1 : k = 1).
  { pose proof (Hmin 1 ltac:(lia)) as H1.
    assert (Hc : k = 0 \/ k = 1 \/ k = 2 \/ k = 3) by lia.
    destruct Hc as [-> | [-> | [-> | ->]]]; [| reflexivity | |];
      vm_compute in H1; exfalso; apply H1; reflexivity. }
  subst k. split; [exact Hnew | exact Hev].
Defined.

(* ===================================================================== *)
(** * Further properties: the hit rate below the overflow *)
(* ===================================================================== *)

(** X15.  As long as [hits] is at most 42949672 (so that [hits * 100]
    fits 32 bits) and [hits + misses] is below [2^32], the hit rate is
    the percentage [hits * 100 / (hits + misses)] rounded down, 0 when
    nothing was looked up; it lies between 0 and 100, and it is 100
    exactly when there was a hit and no miss. *)
Theorem picodt_cache_hit_rate_percentage (c : picodt_cache_t) :
  0 <= hits (stats c) <= 42949672 ->
  0 <= misses (stats c) ->
  hits (stats c) + misses (stats c) < 2 ^ 32 ->
  picodt_cache_hit_rate (Some c)
  = (if hits (stats c) + misses (stats c) =? 0 then 0
     else hits (stats c) * 100 / (hits (stats c) + misses (stats c)))
  /\ 0 <= picodt_cache_hit_rate (Some c) <= 100
  /\ (picodt_cache_hit_rate (Some c) = 100
      <-> 0 < hits (stats c) /\ misses (stats c) = 0).
Proof.
  intros Hh Hm Htot.
  destruct (picodt_cache_hit_rate_exact c ltac:(lia) Hm Htot
              ltac:(change (2 ^ 32) with 4294967296; lia)) as [Heq Hr].
  split; [exact Heq |]. split; [exact Hr |].
  rewrite Heq.
  destruct (Z.eqb_spec (hits (stats c) + misses (stats c)) 0) as [E | E].
  - split; [lia | intros [H1 H2]; lia].
  - split.
    + intros H.
      pose proof (Z.mul_div_le (hits (stats c) * 100)
                    (hits (stats c) + misses (stats c)) ltac:(lia)) as Hd.
      rewrite H in Hd. lia.
    + intros [H1 H2]. rewrite H2, Z.add_0_r.
      rewrite (Z.mul_comm (hits (stats c)) 100). apply Z.div_mul. lia.
Qed.

Lemma picodt_cache_hit_rate_percentage_witness :
  picodt_cache_hit_rate
    (Some (after_lookup 0 0 (after_lookup 0 0 cache_two_misses))) = 50.
Proof.
  destruct (picodt_cache_hit_rate_percentage
              (after_lookup 0 0 (after_lookup 0 0 cache_two_misses)))
    as (Heq & _).
  - vm_compute. split; discriminate.
  - vm_compute. discriminate.
  - vm_compute. reflexivity.
  - rewrite Heq. reflexivity.
Defined.

(* ===================================================================== *)
(** * Further properties: the noise shaping filter *)
(* ===================================================================== *)



Lemma store_loop_spec (g : Z -> Z) n : forall k (l : list Z),
  (k + n <= length l)%nat ->
  length (store_loop g n (Z.of_nat k) l) = length l
  /\ forall j,
       ((k <= j < k + n)%nat ->
        nth j (store_loop g n (Z.of_nat k) l) 0 = g (Z.of_nat j))
       /\ ((j < k \/ k + n <= j)%nat ->
           nth j (store_loop g n (Z.of_nat k) l) 0 = nth j l 0).
Proof.
  induction n as [| n IH]; intros k l Hlen.
  - cbn [store_loop]. split; [reflexivity |].
    intros j. split; [lia | reflexivity].
  - cbn [store_loop]. rewrite Nat2Z.id.
    replace (Z.of_nat k + 1) with (Z.of_nat (S k)) by lia.
    destruct (IH (S k) (<[k := g (Z.of_nat k)]> l)) as [Hl Hj].
    { rewrite length_insert. lia. }
    rewrite length_insert in Hl. split; [exact Hl |].
    intros j. destruct (Hj j) as [Hin Hout]. split.
    + intros Hr. destruct (Nat.eq_dec j k) as [-> | Hne].
      * rewrite Hout by lia. rewrite nth_lookup, list_lookup_insert_eq by lia.
        reflexivity.
      * apply Hin. lia.
    + intros Hr. rewrite Hout by lia.
      rewrite !nth_lookup, list_lookup_insert_ne by lia. reflexivity.
Qed.

(** [store_loop_spec] with the indices of the C code. *)
Lemma store_loop_cells (g : Z -> Z) (n k : Z) (l : list Z) :
  0 <= k -> 0 <= n -> k + n <= Z.of_nat (length l) ->
  length (store_loop g (Z.to_nat n) k l) = length l
  /\ (forall i, k <= i < k + n ->
        q15_at (store_loop g (Z.to_nat n) k l) i = g i)
  /\ (forall i, 0 <= i -> i < k \/ k + n <= i ->
        q15_at (store_loop g (Z.to_nat n) k l) i = q15_at l i).
Proof.
  intros Hk Hn Hlen.
  destruct (store_loop_spec g (Z.to_nat n) (Z.to_nat k) l ltac:(lia))
    as [Hl Hj].
  rewrite Z2Nat.id in Hl, Hj by lia.
  split; [exact Hl |]. split.
  - intros i Hi. unfold q15_at.
    rewrite (proj1 (Hj (Z.to_nat i))) by lia. f_equal. lia.
  - intros i Hi Hr. unfold q15_at.
    now rewrite (proj2 (Hj (Z.to_nat i))) by lia.
Qed.









(* ===================================================================== *)
(** * Further properties: the quality context *)
(* ===================================================================== *)

(** X19.  [pico_quality_init] is idempotent, and on a context that is
    already initialized it is a no-op that keeps whatever parameters are
    active.  After [pico_quality_cleanup], which only clears the flag, a
    new [pico_quality_init] brings back the defaults: the default voice
    and prosody sets, a zeroed filter of order 8, the seed 12345 and
    zeroed statistics, whatever the state was. *)
Theorem pico_quality_init_idempotent (g : quality_globals) :
  snd (pico_quality_init (snd (pico_quality_init g)))
  = snd (pico_quality_init g)
  /\ (initialized (g_quality_ctx g) <> 0 -> pico_quality_init g = (PICO_OK, g))
  /\ snd (pico_quality_init (snd (pico_quality_cleanup g)))
     = mk_globals
         (mk_context default_voice_params default_prosody_params
            (mk_filter (replicate 8 0) (replicate 8 0) 8) 12345 1)
         (mk_quality_stats 0 0 0 0).
Proof.
  destruct g as [[v pr f seed ini] st].
  unfold pico_quality_init, pico_quality_cleanup.
  cbn [g_quality_ctx initialized].
  destruct (Z.eqb_spec ini 0) as [-> | Hne]; cbn [negb].
  - repeat split; try reflexivity. intros H. now contradiction H.
  - cbn [snd g_quality_ctx initialized].
    destruct (Z.eqb_spec ini 0) as [E | _]; [contradiction |]. cbn [negb].
    repeat split; reflexivity.
Qed.

Lemma pico_quality_init_idempotent_witness :
  pico_quality_init custom_globals = (PICO_OK, custom_globals).
Proof.
  apply (proj1 (proj2 (pico_quality_init_idempotent custom_globals))).
  vm_compute. discriminate.
Defined.

(** X20.  The voice setter and getter on numbers: a set whose three
    scales are numbers is accepted exactly when every field is within
    its documented bound; an accepted set is what [pico_get_voice_params]
    returns afterwards, field for field, and after a rejected one it
    returns what it returned before. *)
Theorem pico_voice_params_round_trip (p buf : pico_voice_params_t)
  (g : quality_globals) :
  single_is_nan (pitch_scale p) = false ->
  single_is_nan (speed_scale p) = false ->
  single_is_nan (formant_shift p) = false ->
  (voice_params_in_bounds p = true ->
   fst (pico_set_voice_params (Some p) g) = PICO_OK
   /\ pico_get_voice_params (Some buf) (snd (pico_set_voice_params (Some p) g))
      = (PICO_OK, Some p))
  /\ (voice_params_in_bounds p = false ->
      fst (pico_set_voice_params (Some p) g) = PICO_ERR_OTHER
      /\ pico_get_voice_params (Some buf)
           (snd (pico_set_voice_params (Some p) g))
         = pico_get_voice_params (Some buf) g).
Proof.
  intros Hp Hs Hf. rewrite (pico_set_voice_params_spec p g Hp Hs Hf).
  split; intros ->; split; reflexivity.
Qed.

Lemma pico_voice_params_round_trip_witness :
  pico_get_voice_params (Some default_voice_params)
    (snd (pico_set_voice_params
            (Some (mk_voice (single_lit 12 10) (single_lit 9 10)
                     (single_lit 100 1) 1)) static_globals))
  = (PICO_OK,
     Some (mk_voice (single_lit 12 10) (single_lit 9 10) (single_lit 100 1) 1)).
Proof.
  apply (proj1 (pico_voice_params_round_trip
                  (mk_voice (single_lit 12 10) (single_lit 9 10)
                     (single_lit 100 1) 1)
                  default_voice_params static_globals
                  eq_refl eq_refl eq_refl)).
  reflexivity.
Defined.

Lemma pico_clamp_float_idem v :
  pico_clamp_float
    (pico_clamp_float v (single_lit 5 10) (single_lit 20 10))
    (single_lit 5 10) (single_lit 20 10)
  = pico_clamp_float v (single_lit 5 10) (single_lit 20 10).
Proof.
  assert (H : pico_clamp_float v (single_lit 5 10) (single_lit 20 10)
              = if single_lt v (single_lit 5 10) then single_lit 5 10
                else if single_gt v (single_lit 20 10) then single_lit 20 10
                else v) by reflexivity.
  destruct (single_lt v (single_lit 5 10)) eqn:E1;
    [rewrite H; reflexivity |].
  destruct (single_gt v (single_lit 20 10)) eqn:E2;
    [rewrite H; reflexivity |].
  rewrite H. unfold pico_clamp_float. now rewrite E1, E2.
Qed.

Lemma clamp_boost_idem q : clamp_boost (clamp_boost q) = clamp_boost q.
Proof. unfold clamp_boost. lia. Qed.

(** X21.  The prosody setter is idempotent on every input, numbers or
    not: handing the struct it wrote back to it succeeds and changes
    neither the struct nor the active set; and [pico_get_prosody_params]
    returns exactly the struct the setter handed back. *)
Theorem pico_set_prosody_params_idempotent (p buf : pico_prosody_params_t)
  (g : quality_globals) :
  exists p1 g1,
    pico_set_prosody_params (Some p) g = (PICO_OK, Some p1, g1)
    /\ pico_set_prosody_params (Some p1) g1 = (PICO_OK, Some p1, g1)
    /\ pico_get_prosody_params (Some buf) g1 = (PICO_OK, Some p1)
    /\ voice_params (g_quality_ctx g1) = voice_params (g_quality_ctx g).
Proof.
  eexists. eexists. rewrite pico_set_prosody_params_spec.
  split; [reflexivity |]. split; [| split; reflexivity].
  rewrite pico_set_prosody_params_spec.
  cbn [emphasis_scale pause_scale question_boost].
  rewrite !pico_clamp_float_idem, clamp_boost_idem.
  destruct g as [[v pr f seed ini] st]. reflexivity.
Qed.

Lemma set_quality_mode_validated mode g :
  active_voice_validated g ->
  active_voice_validated (snd (pico_set_quality_mode mode g)).
Proof.
  intros Hg. unfold pico_set_quality_mode. unfold_limits.
  destruct (Z.ltb_spec mode 0), (Z.gtb_spec mode 2); cbn [orb snd];
    try exact Hg.
  unfold active_voice_validated, pico_validate_voice_params in *.
  destruct g as [[[ps ss fs qm] pr f seed ini] st].
  cbn [with_voice g_quality_ctx voice_params pitch_scale speed_scale
       formant_shift quality_mode] in *.
  destruct (single_lt ps _ || single_gt ps _); [discriminate |].
  destruct (single_lt ss _ || single_gt ss _); [discriminate |].
  destruct (single_lt fs _ || single_gt fs _); [discriminate |].
  unfold_limits.
  destruct (Z.ltb_spec mode 0), (Z.gtb_spec mode 2); cbn [orb];
    try reflexivity; lia.
Qed.

Lemma set_voice_params_validated params g :
  active_voice_validated g ->
  active_voice_validated (snd (pico_set_voice_params params g)).
Proof.
  intros Hg. unfold pico_set_voice_params. destruct params as [p |]; [| exact Hg].
  destruct (pico_validate_voice_params (Some p)) eqn:E; cbn; try exact Hg.
  unfold active_voice_validated. destruct g as [[v pr f seed ini] st].
  exact E.
Qed.

Lemma run_quality_call_validated k g :
  active_voice_validated g -> active_voice_validated (run_quality_call k g).
Proof.
  intros Hg. destruct k; cbn [run_quality_call].
  - unfold pico_quality_init.
    destruct (negb (initialized (g_quality_ctx g) =? 0)); [exact Hg |].
    reflexivity.
  - unfold pico_quality_cleanup.
    destruct (initialized (g_quality_ctx g) =? 0); exact Hg.
  - now apply set_quality_mode_validated.
  - now apply set_voice_params_validated.
  - reflexivity.
  - unfold active_voice_validated.
    now rewrite pico_set_prosody_params_voice.
  - exact Hg.
  - destruct (pico_apply_voice_profile_shape profile g) as (v & pr & ->).
    cbn [snd]. unfold active_voice_validated.
    rewrite pico_set_prosody_params_voice.
    now apply set_voice_params_validated.
  - exact Hg.
Qed.

(** X22.  Once the active voice set passes
    [pico_validate_voice_params], it passes after every sequence of
    calls of the interface (init, cleanup, quality mode, voice and
    prosody setters and resets, profiles, statistics), and its quality
    mode is one of the three presets throughout. *)
Theorem active_voice_stays_validated (g : quality_globals)
  (ks : list quality_call) :
  active_voice_validated g ->
  active_voice_validated (fold_left (fun g k => run_quality_call k g) ks g)
  /\ quality_mode_valid (fold_left (fun g k => run_quality_call k g) ks g).
Proof.
  intros Hg.
  assert (H : active_voice_validated
                (fold_left (fun g k => run_quality_call k g) ks g)).
  { revert g Hg. induction ks as [| k ks IH]; intros g Hg; [exact Hg |].
    cbn [fold_left]. apply IH. now apply run_quality_call_validated. }
  split; [exact H |].
  unfold quality_mode_valid. now apply pico_validate_voice_params_mode.
Qed.

Lemma active_voice_stays_validated_witness :
  active_voice_validated
    (fold_left (fun g k => run_quality_call k g)
       [CallApplyVoiceProfile 4; CallSetQualityMode 7; CallCleanup]
       (snd (pico_quality_init static_globals))).
Proof.
  exact (proj1 (active_voice_stays_validated
                  (snd (pico_quality_init static_globals))
                  [CallApplyVoiceProfile 4; CallSetQualityMode 7; CallCleanup]
                  eq_refl)).
Defined.

Lemma pico_apply_voice_profile_state g p :
  quality_mode_valid g ->
  pico_apply_voice_profile (profile_code p) g
  = (PICO_OK,
     with_prosody
       (with_voice g (overlay_voice p (defaults_keeping_mode g)))
       (overlay_prosody p (defaults_keeping_boost g))).
Proof.
  destruct g as [[[ps ss fs qm] [es pause qb] f seed ini] st].
  unfold quality_mode_valid, defaults_keeping_mode, defaults_keeping_boost.
  cbn [g_quality_ctx voice_params prosody_params quality_mode question_boost].
  intros Hqm.
  assert (Hc : qm = 0 \/ qm = 1 \/ qm = 2) by lia.
  destruct Hc as [-> | [-> | ->]]; destruct p; profile_switch;
    cbn [g_quality_ctx voice_params prosody_params quality_mode question_boost
         pitch_scale speed_scale formant_shift emphasis_scale pause_scale];
    rewrite pico_set_prosody_params_spec;
    rewrite pico_set_voice_params_ok by reflexivity;
    reflexivity.
Qed.

(** X23.  The last profile wins: from a state whose quality mode is one
    of the three presets, applying profile [q] after profile [p] leaves
    exactly the globals that applying [q] alone leaves; in particular
    applying a profile twice is the same as applying it once. *)
Theorem pico_apply_voice_profile_last_wins (g : quality_globals)
  (p q : voice_profile) :
  quality_mode_valid g ->
  snd (pico_apply_voice_profile (profile_code q)
         (snd (pico_apply_voice_profile (profile_code p) g)))
  = snd (pico_apply_voice_profile (profile_code q) g).
Proof.
  intros Hg.
  assert (Hg1 : quality_mode_valid
                  (snd (pico_apply_voice_profile (profile_code p) g))).
  { exact (run_quality_call_mode_valid
             (CallApplyVoiceProfile (profile_code p)) g Hg). }
  rewrite (pico_apply_voice_profile_state _ q Hg1).
  rewrite (pico_apply_voice_profile_state g q Hg).
  rewrite (pico_apply_voice_profile_state g p Hg).
  cbn [snd].
  assert (Hm : defaults_keeping_mode
                 (with_prosody
                    (with_voice g (overlay_voice p (defaults_keeping_mode g)))
                    (overlay_prosody p (defaults_keeping_boost g)))
               = defaults_keeping_mode g).
  { destruct g as [[v pr f seed ini] st]. destruct p; reflexivity. }
  assert (Hb : defaults_keeping_boost
                 (with_prosody
                    (with_voice g (overlay_voice p (defaults_keeping_mode g)))
                    (overlay_prosody p (defaults_keeping_boost g)))
               = defaults_keeping_boost g).
  { destruct g as [[v pr f seed ini] st].
    unfold defaults_keeping_boost.
    destruct p; cbn [with_prosody with_voice g_quality_ctx prosody_params
                     overlay_prosody question_boost];
      now rewrite clamp_boost_idem. }
  rewrite Hm, Hb. destruct g as [[v pr f seed ini] st]. reflexivity.
Qed.

Lemma pico_apply_voice_profile_last_wins_witness :
  snd (pico_apply_voice_profile PICO_VOICE_PROFILE_FEMALE
         (snd (pico_apply_voice_profile PICO_VOICE_PROFILE_ROBOT
                 custom_globals)))
  = snd (pico_apply_voice_profile PICO_VOICE_PROFILE_FEMALE custom_globals).
Proof.
  assert (Hv : quality_mode_valid custom_globals)
    by (unfold quality_mode_valid; vm_compute; split; discriminate).
  exact (pico_apply_voice_profile_last_wins custom_globals ProfileRobot
           ProfileFemale Hv).
Defined.

(* ===================================================================== *)
(** * Further properties: Q31 product and vector scaling *)
(* ===================================================================== *)

Lemma to_int64_id x :
  -9223372036854775808 <= x <= 9223372036854775807 -> to_int64 x = x.
Proof.
  intros H. unfold to_int64, to_signed. simpl Z.sub.
  change (2 ^ 63) with 9223372036854775808.
  change (2 ^ 64) with 18446744073709551616. zdivmod.
Qed.

(** X24.  For 32-bit operands, [pico_q31_mult a b] is the product
    divided by [2^31] and rounded down, and it is a 32-bit value, with
    one exception: the square of -2147483648 (of -1.0) does not fit and
    comes back as -2147483648 again. *)
Theorem pico_q31_mult_floor (a b : Z) :
  is_int32 a -> is_int32 b ->
  (a <> -2147483648 \/ b <> -2147483648 ->
   pico_q31_mult a b = a * b / 2147483648
   /\ is_int32 (a * b / 2147483648))
  /\ (a = -2147483648 -> b = -2147483648 ->
      pico_q31_mult a b = -2147483648).
Proof.
  unfold is_int32. intros Ha Hb. split.
  - intros Hne.
    assert (Hp : -4611686016279904256 <= a * b <= 4611686016279904256) by nia.
    assert (Hr : is_int32 (a * b / 2147483648)) by (unfold is_int32; zdivmod).
    split; [| exact Hr].
    unfold pico_q31_mult, PICO_Q31_SHIFT.
    rewrite to_int64_id by lia.
    rewrite Z.shiftr_div_pow2 by lia. change (2 ^ 31) with 2147483648.
    now apply to_int32_id.
  - intros -> ->. reflexivity.
Qed.

Lemma pico_q31_mult_floor_witness :
  pico_q31_mult 1073741824 1073741824 = 536870912
  /\ pico_q31_mult (-1) 1 = -1.
Proof.
  assert (H1 : is_int32 1073741824) by (unfold is_int32; lia).
  assert (H2 : is_int32 (-1)) by (unfold is_int32; lia).
  assert (H3 : is_int32 1) by (unfold is_int32; lia).
  split.
  - apply (proj1 (pico_q31_mult_floor 1073741824 1073741824 H1 H1)).
    left; lia.
  - apply (proj1 (pico_q31_mult_floor (-1) 1 H2 H3)). left; lia.
Defined.

Lemma vector_scale_loop_store input scale n : forall i out,
  vector_scale_loop input scale n i out
  = store_loop (fun i => pico_q15_mult (q15_at input i) scale) n i out.
Proof. induction n as [| n IH]; intros; cbn; [reflexivity | apply IH]. Qed.

(** X25.  [pico_q15_vector_scale] on a Q15 array and a Q15 scale writes
    the first [len] cells of the output, each with the input cell times
    the scale divided by [2^15] and rounded down, a Q15 value; it leaves
    every cell from [len] on as it was and does not change the length of
    the output.  The scaling does not saturate: with the scale -32768
    (-1.0) an input cell -32768 stays -32768 instead of becoming
    32767. *)
Theorem pico_q15_vector_scale_correct (input out : list Z) (scale len : Z) :
  Forall is_int16 input -> is_int16 scale ->
  len <= Z.of_nat (length input) -> len <= Z.of_nat (length out) ->
  length (pico_q15_vector_scale input scale out len) = length out
  /\ (forall i, 0 <= i < len ->
        (q15_at input i <> -32768 \/ scale <> -32768 ->
         q15_at (pico_q15_vector_scale input scale out len) i
         = q15_at input i * scale / 32768
         /\ is_int16 (q15_at input i * scale / 32768))
        /\ (scale = -32768 -> q15_at input i = -32768 ->
            q15_at (pico_q15_vector_scale input scale out len) i = -32768))
  /\ (forall i, len <= i -> 0 <= i ->
        q15_at (pico_q15_vector_scale input scale out len) i = q15_at out i).
Proof.
  intros Hin Hs _ Hout. unfold pico_q15_vector_scale.
  rewrite vector_scale_loop_store.
  destruct (Z.le_gt_cases 0 len) as [Hlen | Hlen].
  - destruct (store_loop_cells
                (fun i => pico_q15_mult (q15_at input i) scale) len 0 out
                ltac:(lia) Hlen ltac:(lia)) as (Hl & Hi & Ho).
    split; [exact Hl |]. split.
    + intros i Hr. rewrite Hi by lia.
      pose proof (q15_at_range input i Hin) as Hx.
      destruct (q15_product_bounds (q15_at input i) scale Hx Hs) as [Hp Hq].
      split.
      * intros Hne. specialize (Hq Hne).
        assert (Hv : is_int16 (q15_at input i * scale / 32768))
          by (unfold is_int16; zdivmod).
        split; [| exact Hv].
        unfold pico_q15_mult, PICO_Q15_SHIFT.
        rewrite to_int32_id by lia.
        rewrite Z.shiftr_div_pow2 by lia. change (2 ^ 15) with 32768.
        now apply to_int16_id.
      * intros -> ->. reflexivity.
    + intros i Hr Hpos. apply Ho; lia.
  - replace (Z.to_nat len) with 0%nat by lia. cbn [store_loop].
    split; [reflexivity |]. split; [intros i Hr; lia | reflexivity].
Qed.

Lemma pico_q15_vector_scale_correct_witness :
  q15_at (pico_q15_vector_scale [16384; -32768; 7] 16384 [9; 9; 9] 2) 1
  = -32768 * 16384 / 32768
  /\ is_int16 (-32768 * 16384 / 32768).
Proof.
  assert (Ha : Forall is_int16 [16384; -32768; 7])
    by (repeat constructor; unfold is_int16; lia).
  assert (Hs : is_int16 16384) by (unfold is_int16; lia).
  apply (proj1 (proj1 (proj2 (pico_q15_vector_scale_correct
                                [16384; -32768; 7] [9; 9; 9] 16384 2 Ha Hs
                                ltac:(cbn; lia) ltac:(cbn; lia))) 1
                  ltac:(lia))).
  right; lia.
Defined.
